(** * The engine / collector boundary of the runtime

    A shallow embedding of two files of the runtime:

    - [src/coreclr/vm/gcheaputilities.h]: the allocation context with its
      randomized sampling limit ([ee_alloc_context]), the heap registry
      ([GCHeapUtilities::IsGCHeapInitialized], [IsGCInProgress],
      [WaitForGCCompletion]) and the software write watch table
      ([SoftwareWriteWatchSetDirty], [SoftwareWriteWatchSetDirtyRegion]);
    - [src/coreclr/nativeaot/Runtime/arm64/AsmMacros.h]: the transition
      frame flags, [INLINE_THREAD_UNHIJACK] and [PUSH_COOP_PINVOKE_FRAME].

    Pointers, [size_t] and the ARM64 registers are 64-bit quantities: they
    are integers of [Z] with the wrap-around written out ([wrap64]).
    Global variables of the C++ code are passed explicitly. *)

From Stdlib Require Import ZArith Lia Bool List.
From Stdlib Require PrimFloat FloatOps SpecFloat Uint63.
From Stdlib Require Strings.Byte.
From Paco Require Import paco.
From ITree Require Import ITree ITreeFacts Events.State Events.StateFacts.

Local Open Scope Z_scope.

(** ** 64-bit machine arithmetic *)

Module Machine64.

Definition modulus : Z := 2 ^ 64.

(** Reduction of an integer to the range of [size_t] / [uintptr_t]. *)
Definition wrap64 (z : Z) : Z := z mod modulus.

(** [p + n] on a [uint8_t*], or the effective address [[base, #off]]. *)
Definition ptr_add (p n : Z) : Z := wrap64 (p + n).

(** Conversion of an [int] to [unsigned char], as [memset] does with its
    fill value. *)
Definition to_uchar (c : Z) : Byte.byte :=
  match Byte.of_N (Z.to_N (c mod 256)) with
  | Some b => b
  | None => Byte.x00
  end.

End Machine64.

(** ** Software write watch: the dirty-page table (gcheaputilities.h) *)

Module WriteWatch.
Import Machine64.

(** [g_sw_ww_table] is a [uint8_t*] that has been translated so that it is
    indexed directly by [address >> shift]; the code reaches it through
    unchecked pointer arithmetic.  The table is therefore the memory seen
    through that pointer: one byte for every index. *)
Definition sw_ww_table : Type := Z -> Byte.byte.

(** [*(&table[i]) = v] *)
Definition table_store (t : sw_ww_table) (i : Z) (v : Byte.byte) : sw_ww_table :=
  fun j => if j =? i then v else t j.

(** [memset(&table[dst], c, n)]: the [n] bytes from index [dst] on receive
    [c] converted to [unsigned char].  This is the fill of a range that lies
    within the address space; a count that would carry the fill past its
    end makes the program fault and is outside what the function
    describes. *)
Definition memset (t : sw_ww_table) (dst c n : Z) : sw_ww_table :=
  fun j => if (dst <=? j) && (j <? dst + n) then to_uchar c else t j.

(** The table in which no page has been written to. *)
Definition clean_table : sw_ww_table := fun _ => Byte.x00.

Section Shift.

(** [SOFTWARE_WRITE_WATCH_AddressToTableByteIndexShift] is defined in a
    header that is not part of the two files; it is the base-2 logarithm
    of the page size and stays a parameter. *)
Variable SOFTWARE_WRITE_WATCH_AddressToTableByteIndexShift : Z.

(** [SoftwareWriteWatchSetDirty(address, write_size)].  The three
    [assert]s (non-null address, [write_size <= sizeof(void* )], write
    within one page) exist in checked builds only and leave no code in a
    release build, which is what is modelled; [write_size] occurs in
    them alone. *)
Definition SoftwareWriteWatchSetDirty
    (address write_size : Z) (g_sw_ww_table : sw_ww_table) : sw_ww_table :=
  let table_byte_index :=
    Z.shiftr address SOFTWARE_WRITE_WATCH_AddressToTableByteIndexShift in
  if Byte.eqb (g_sw_ww_table table_byte_index) Byte.x00
  then table_store g_sw_ww_table table_byte_index Byte.xff
  else g_sw_ww_table.

(** [SoftwareWriteWatchSetDirtyRegion(address, length)] *)
Definition SoftwareWriteWatchSetDirtyRegion
    (address length : Z) (g_sw_ww_table : sw_ww_table) : sw_ww_table :=
  let base_index :=
    Z.shiftr address SOFTWARE_WRITE_WATCH_AddressToTableByteIndexShift in
  let end_pointer := wrap64 (address + length - 1) in
  let end_index :=
    Z.shiftr end_pointer SOFTWARE_WRITE_WATCH_AddressToTableByteIndexShift in
  memset g_sw_ww_table base_index (Z.lnot 0)
         (wrap64 (end_index - base_index + 1)).

(** The page of index [page] holds an address of [[address, address+length)]. *)
Definition page_intersects (page address length : Z) : Prop :=
  exists a, address <= a < address + length /\
            Z.shiftr a SOFTWARE_WRITE_WATCH_AddressToTableByteIndexShift = page.

End Shift.

End WriteWatch.

(** ** The allocation context and its sampling limit (gcheaputilities.h) *)

Module AllocContext.
Import Machine64.

(** [const DWORD SamplingDistributionMean = (100 * 1024);] *)
Definition SamplingDistributionMean : Z := 100 * 1024.

(** Modelled from the spec: [gc_alloc_context] and its [init()] are
    declared in gcinterface.h, which is not among the two files.  The
    spec gives the window its two bounds, [alloc_ptr] and [alloc_limit],
    and has [initialize()] zero the window and limits.  Both bounds are
    [uint8_t*]. *)
Record gc_alloc_context_t : Type := {
  alloc_ptr : Z;
  alloc_limit : Z
}.

Definition gc_alloc_context_init (c : gc_alloc_context_t) : gc_alloc_context_t :=
  {| alloc_ptr := 0; alloc_limit := 0 |}.

(** [struct _ee_alloc_context] *)
Record ee_alloc_context : Type := {
  combined_limit : Z;
  gc_alloc_context : gc_alloc_context_t
}.

(** [ee_alloc_context::init()] *)
Definition init (this : ee_alloc_context) : ee_alloc_context :=
  {| combined_limit := 0;
     gc_alloc_context := gc_alloc_context_init (gc_alloc_context this) |}.

(** Modelled from the spec: the template [Min] comes from a header that is
    not among the two files; the spec has
    [combined_limit = min(candidate, alloc_limit)].  It is written the
    way the runtime writes it, [v1 < v2 ? v1 : v2]. *)
Definition Min (v1 v2 : Z) : Z := if v1 <? v2 then v1 else v2.

(** The type [double] is the binary64 format, with its own subtraction,
    negation and multiplication. *)
Definition double : Type := PrimFloat.float.

(** The conversion of a [DWORD] to [double], which the multiplication by
    [SamplingDistributionMean] performs; it is exact for that constant. *)
Definition double_of_DWORD (n : Z) : double :=
  PrimFloat.of_uint63 (Uint63.of_Z n).

(** Whether the type [int] holds the value [n]. *)
Definition int_representableb (n : Z) : bool := (- 2 ^ 31 <=? n) && (n <? 2 ^ 31).

(** The integral part of a [double], the fraction discarded (toward
    zero); there is none for infinities and NaN. *)
Definition double_truncate (x : double) : option Z :=
  match FloatOps.Prim2SF x with
  | SpecFloat.S754_zero _ => Some 0
  | SpecFloat.S754_finite s m e =>
      let magnitude :=
        if 0 <=? e then Z.pos m * 2 ^ e else Z.pos m / 2 ^ (- e) in
      Some (if s then - magnitude else magnitude)
  | SpecFloat.S754_infinity _ => None
  | SpecFloat.S754_nan => None
  end.

Section Random.

(** [CLRRandom] is declared elsewhere: the generator is a state, and
    [NextDouble] returns the number drawn and the next state. *)
Variable CLRRandom : Type.
Variable NextDouble : CLRRandom -> double * CLRRandom.

(** [log] of math.h belongs to the C library. *)
Variable log : double -> double.

(** The language leaves [(int)x] undefined when the integral part of [x]
    does not fit the type [int]; what the machine then delivers is a
    parameter. *)
Variable int_of_unrepresentable : double -> Z.

(** The conversion [(int)x] of a [double]. *)
Definition double_to_int (x : double) : Z :=
  match double_truncate x with
  | Some n => if int_representableb n then n else int_of_unrepresentable x
  | None => int_of_unrepresentable x
  end.

(** Whether the build has [FEATURE_EVENT_TRACE], and what
    [ETW_TRACING_CATEGORY_ENABLED] answers for the allocation sampling
    keyword. *)
Variable FEATURE_EVENT_TRACE : bool.
Variable ETW_TRACING_CATEGORY_ENABLED : bool.

(** [ee_alloc_context::IsRandomizedSamplingEnabled()] *)
Definition IsRandomizedSamplingEnabled : bool :=
  if FEATURE_EVENT_TRACE then ETW_TRACING_CATEGORY_ENABLED else false.

(** [ee_alloc_context::ComputeGeometricRandom(pRandomizer)] *)
Definition ComputeGeometricRandom (pRandomizer : CLRRandom) : Z * CLRRandom :=
  let (probability, pRandomizer') := NextDouble pRandomizer in
  let threshold :=
    double_to_int
      (PrimFloat.mul
         (PrimFloat.opp (log (PrimFloat.sub PrimFloat.one probability)))
         (double_of_DWORD SamplingDistributionMean)) in
  (threshold, pRandomizer').

(** [ee_alloc_context::UpdateCombinedLimit(samplingEnabled, pRandom)] *)
Definition UpdateCombinedLimit
    (samplingEnabled : bool) (pRandom : CLRRandom) (this : ee_alloc_context)
  : ee_alloc_context * CLRRandom :=
  if negb samplingEnabled then
    ({| combined_limit := alloc_limit (gc_alloc_context this);
        gc_alloc_context := gc_alloc_context this |}, pRandom)
  else
    let (threshold, pRandom') := ComputeGeometricRandom pRandom in
    let sampling_limit := ptr_add (alloc_ptr (gc_alloc_context this)) threshold in
    ({| combined_limit := Min sampling_limit (alloc_limit (gc_alloc_context this));
        gc_alloc_context := gc_alloc_context this |}, pRandom').

(** [ee_alloc_context::UpdateCombinedLimit(pRandom)], the overload that
    asks [IsRandomizedSamplingEnabled] itself. *)
Definition UpdateCombinedLimit_default
    (pRandom : CLRRandom) (this : ee_alloc_context)
  : ee_alloc_context * CLRRandom :=
  UpdateCombinedLimit IsRandomizedSamplingEnabled pRandom this.

End Random.

(** A generator that hands out the numbers of a list, one per draw. *)
Definition replay_NextDouble (draws : list double) : double * list double :=
  (hd PrimFloat.zero draws, tl draws).

(** For examples, in place of the library's [log]: its tangent at one,
    [x - 1], which like [log] is zero at one and negative below. *)
Definition tangent_log (x : double) : double := PrimFloat.sub x PrimFloat.one.

(** For examples: a machine that delivers the smallest [int] for a value
    that does not fit. *)
Definition indefinite_int (x : double) : Z := - 2 ^ 31.

(** The numbers one half and one quarter. *)
Definition one_half : double := PrimFloat.div PrimFloat.one PrimFloat.two.
Definition one_quarter : double := PrimFloat.div one_half PrimFloat.two.

End AllocContext.

(** ** ARM64 assembly macros (AsmMacros.h) *)

Module Arm64.
Import Machine64.

(** *** Transition frame flags *)

Definition PTFF_SAVE_X19 : Z := 0x00000001.
Definition PTFF_SAVE_X20 : Z := 0x00000002.
Definition PTFF_SAVE_X21 : Z := 0x00000004.
Definition PTFF_SAVE_X22 : Z := 0x00000008.
Definition PTFF_SAVE_X23 : Z := 0x00000010.
Definition PTFF_SAVE_X24 : Z := 0x00000020.
Definition PTFF_SAVE_X25 : Z := 0x00000040.
Definition PTFF_SAVE_X26 : Z := 0x00000080.
Definition PTFF_SAVE_X27 : Z := 0x00000100.
Definition PTFF_SAVE_X28 : Z := 0x00000200.
Definition PTFF_SAVE_SP : Z := 0x00000400.
Definition PTFF_SAVE_ALL_PRESERVED : Z := 0x000003FF.

Definition DEFAULT_FRAME_SAVE_FLAGS : Z := PTFF_SAVE_ALL_PRESERVED + PTFF_SAVE_SP.

(** The flag of the preserved register [x<n>], for [n] from 19 to 28, in
    the order of the table above. *)
Definition PTFF_SAVE_X (n : nat) : Z :=
  match n with
  | 19%nat => PTFF_SAVE_X19 | 20%nat => PTFF_SAVE_X20
  | 21%nat => PTFF_SAVE_X21 | 22%nat => PTFF_SAVE_X22
  | 23%nat => PTFF_SAVE_X23 | 24%nat => PTFF_SAVE_X24
  | 25%nat => PTFF_SAVE_X25 | 26%nat => PTFF_SAVE_X26
  | 27%nat => PTFF_SAVE_X27 | 28%nat => PTFF_SAVE_X28
  | _ => 0
  end.

(** *** Machine state *)

(** Register operands: the general registers [x0]..[x30], the zero
    register and the stack pointer. *)
Inductive reg : Type :=
| X (n : nat)
| XZR
| SP.

Definition fp : reg := X 29.
Definition lr : reg := X 30.

Definition reg_eqb (a b : reg) : bool :=
  match a, b with
  | X n, X k => Nat.eqb n k
  | XZR, XZR => true
  | SP, SP => true
  | _, _ => false
  end.

(** Registers, and memory as the 64-bit doublewords the macros load and
    store, keyed by their address: every access of the two macros is a
    doubleword access, taken to be naturally aligned. *)
Record machine : Type := {
  regs : reg -> Z;
  mem : Z -> Z
}.

(** Reading [xzr] gives zero; writing it is discarded. *)
Definition get_reg (m : machine) (r : reg) : Z :=
  match r with
  | XZR => 0
  | _ => regs m r
  end.

Definition set_reg (m : machine) (r : reg) (v : Z) : machine :=
  match r with
  | XZR => m
  | _ => {| regs := fun r' => if reg_eqb r' r then v else regs m r';
            mem := mem m |}
  end.

Definition load (m : machine) (a : Z) : Z := mem m a.

Definition store (m : machine) (a v : Z) : machine :=
  {| regs := regs m;
     mem := fun a' => if a' =? a then v else mem m a' |}.

(** *** Instructions *)

(** [ldr rt, [rn, #off]] *)
Definition ldr (rt rn : reg) (off : Z) (m : machine) : machine :=
  set_reg m rt (load m (ptr_add (get_reg m rn) off)).

(** [str rt, [rn, #off]] *)
Definition str (rt rn : reg) (off : Z) (m : machine) : machine :=
  store m (ptr_add (get_reg m rn) off) (get_reg m rt).

(** [stp rt1, rt2, [rn, #off]] *)
Definition stp (rt1 rt2 rn : reg) (off : Z) (m : machine) : machine :=
  let a := ptr_add (get_reg m rn) off in
  store (store m a (get_reg m rt1)) (ptr_add a 8) (get_reg m rt2).

(** [stp rt1, rt2, [rn, #off]!]: store at the updated base, which is
    written back. *)
Definition stp_pre (rt1 rt2 rn : reg) (off : Z) (m : machine) : machine :=
  let a := ptr_add (get_reg m rn) off in
  set_reg (store (store m a (get_reg m rt1)) (ptr_add a 8) (get_reg m rt2)) rn a.

(** [add rd, rn, #imm] *)
Definition add (rd rn : reg) (imm : Z) (m : machine) : machine :=
  set_reg m rd (wrap64 (get_reg m rn + imm)).

(** [mov rd, #imm] *)
Definition mov_imm (rd : reg) (imm : Z) (m : machine) : machine :=
  set_reg m rd imm.

(** [mov rd, rn] *)
Definition mov (rd rn : reg) (m : machine) : machine :=
  set_reg m rd (get_reg m rn).

(** *** Thread::Unhijack() *)

Section ThreadOffsets.

(** The offsets of the two fields of the hijack record in [Thread]
    come from the generated AsmOffsets.inc. *)
Variable OFFSETOF__Thread__m_pvHijackedReturnAddress : Z.
Variable OFFSETOF__Thread__m_ppvHijackedReturnAddressLocation : Z.

(** [INLINE_THREAD_UNHIJACK $threadReg, $trashReg1, $trashReg2].
    [cbz $trashReg1, %ft0] leaves for the label [0] at the end of the
    macro when the register holds zero. *)
Definition INLINE_THREAD_UNHIJACK
    (threadReg trashReg1 trashReg2 : reg) (m : machine) : machine :=
  let m := ldr trashReg1 threadReg OFFSETOF__Thread__m_pvHijackedReturnAddress m in
  if get_reg m trashReg1 =? 0 then m
  else
    let m := ldr trashReg2 threadReg
                 OFFSETOF__Thread__m_ppvHijackedReturnAddressLocation m in
    let m := str trashReg1 trashReg2 0 m in
    let m := str XZR threadReg
                 OFFSETOF__Thread__m_ppvHijackedReturnAddressLocation m in
    str XZR threadReg OFFSETOF__Thread__m_pvHijackedReturnAddress m.

(** The hijack record of the thread object at address [thread]. *)
Definition hijacked_return_address (m : machine) (thread : Z) : Z :=
  load m (ptr_add thread OFFSETOF__Thread__m_pvHijackedReturnAddress).

Definition hijacked_return_address_location (m : machine) (thread : Z) : Z :=
  load m (ptr_add thread OFFSETOF__Thread__m_ppvHijackedReturnAddressLocation).

End ThreadOffsets.

(** *** The transition frame *)

(** Modelled from the spec: [PROLOG_SAVE_REG_PAIR] is a macro of the
    operating system's ksarm64.h.  The spec has the frame builder preserve
    the registers into the frame, and the macro body says of its uses
    "Push down stack pointer and store FP and LR" and "Save callee saved
    registers": it is the store of the pair at [[sp, #off]], and with [!]
    the store that first moves [sp] by [off]. *)
Definition PROLOG_SAVE_REG_PAIR (r1 r2 : reg) (off : Z) (writeback : bool)
    (m : machine) : machine :=
  if writeback then stp_pre r1 r2 SP off m else stp r1 r2 SP off m.

(** [PUSH_COOP_PINVOKE_FRAME $trashReg] *)
Definition PUSH_COOP_PINVOKE_FRAME (trashReg : reg) (m : machine) : machine :=
  let m := PROLOG_SAVE_REG_PAIR fp lr (-0x80) true m in
  let m := PROLOG_SAVE_REG_PAIR (X 19) (X 20) 0x20 false m in
  let m := PROLOG_SAVE_REG_PAIR (X 21) (X 22) 0x30 false m in
  let m := PROLOG_SAVE_REG_PAIR (X 23) (X 24) 0x40 false m in
  let m := PROLOG_SAVE_REG_PAIR (X 25) (X 26) 0x50 false m in
  let m := PROLOG_SAVE_REG_PAIR (X 27) (X 28) 0x60 false m in
  let m := add trashReg SP 0x80 m in
  let m := str trashReg SP 0x70 m in
  let m := mov_imm trashReg DEFAULT_FRAME_SAVE_FLAGS m in
  let m := str trashReg SP 0x18 m in
  mov trashReg SP m.

(** The slot of the frame at [frame] in which [PUSH_COOP_PINVOKE_FRAME]
    keeps [x<n>], for [n] from 19 to 28. *)
Definition preserved_slot (frame : Z) (n : nat) : Z :=
  ptr_add frame (0x20 + 8 * (Z.of_nat n - 19)).

(** A machine for examples: every register holds its own number, [sp]
    holds [sp0], memory is [mem0]. *)
Definition machine_at (sp0 : Z) (mem0 : Z -> Z) : machine :=
  {| regs := fun r => match r with X n => Z.of_nat n | XZR => 0 | SP => sp0 end;
     mem := mem0 |}.

(** *** The remaining constants *)

Definition TSF_Attached : Z := 0x01.
Definition TSF_SuppressGcStress : Z := 0x08.
Definition TSF_DoNotTriggerGc : Z := 0x10.
Definition TSF_SuppressGcStress__OR__TSF_DoNotTriggerGC : Z := 0x18.

Definition TSF_Attached_Bit : Z := 0.
Definition TSF_SuppressGcStress_Bit : Z := 3.
Definition TSF_DoNotTriggerGc_Bit : Z := 4.

Definition PTFF_SAVE_X0 : Z := 0x00000800.
Definition PTFF_SAVE_X1 : Z := 0x00001000.
Definition PTFF_SAVE_X2 : Z := 0x00002000.
Definition PTFF_SAVE_X3 : Z := 0x00004000.
Definition PTFF_SAVE_X4 : Z := 0x00008000.
Definition PTFF_SAVE_X5 : Z := 0x00010000.
Definition PTFF_SAVE_X6 : Z := 0x00020000.
Definition PTFF_SAVE_X7 : Z := 0x00040000.
Definition PTFF_SAVE_X8 : Z := 0x00080000.
Definition PTFF_SAVE_X9 : Z := 0x00100000.
Definition PTFF_SAVE_X10 : Z := 0x00200000.
Definition PTFF_SAVE_X11 : Z := 0x00400000.
Definition PTFF_SAVE_X12 : Z := 0x00800000.
Definition PTFF_SAVE_X13 : Z := 0x01000000.
Definition PTFF_SAVE_X14 : Z := 0x02000000.
Definition PTFF_SAVE_X15 : Z := 0x04000000.
Definition PTFF_SAVE_X16 : Z := 0x08000000.
Definition PTFF_SAVE_X17 : Z := 0x10000000.
Definition PTFF_SAVE_X18 : Z := 0x20000000.
Definition PTFF_SAVE_ALL_SCRATCH : Z := 0x3FFFF800.
Definition PTFF_SAVE_FP : Z := 0x40000000.
Definition PTFF_SAVE_LR : Z := 0x80000000.

(** The upper 32 bits of the transition frame flags. *)
Definition PTFF_X0_IS_GCREF_HI : Z := 0x00000001.
Definition PTFF_X0_IS_BYREF_HI : Z := 0x00000002.
Definition PTFF_X1_IS_GCREF_HI : Z := 0x00000004.
Definition PTFF_X1_IS_BYREF_HI : Z := 0x00000008.
Definition PTFF_THREAD_ABORT_HI : Z := 0x00000010.

Definition PTFF_THREAD_ABORT_BIT : Z := 36.

Definition TrapThreadsFlags_None : Z := 0.
Definition TrapThreadsFlags_AbortInProgress : Z := 1.
Definition TrapThreadsFlags_TrapThreads : Z := 2.

Definition TrapThreadsFlags_AbortInProgress_Bit : Z := 0.
Definition TrapThreadsFlags_TrapThreads_Bit : Z := 1.

(** The flags of the low word, in the order of the table: the preserved
    registers, [sp], the scratch registers [x0]..[x18], [fp], [lr]. *)
Definition PTFF_SAVE_preserved : list Z :=
  PTFF_SAVE_X19 :: PTFF_SAVE_X20 :: PTFF_SAVE_X21 :: PTFF_SAVE_X22 ::
  PTFF_SAVE_X23 :: PTFF_SAVE_X24 :: PTFF_SAVE_X25 :: PTFF_SAVE_X26 ::
  PTFF_SAVE_X27 :: PTFF_SAVE_X28 :: nil.

Definition PTFF_SAVE_scratch : list Z :=
  PTFF_SAVE_X0 :: PTFF_SAVE_X1 :: PTFF_SAVE_X2 :: PTFF_SAVE_X3 ::
  PTFF_SAVE_X4 :: PTFF_SAVE_X5 :: PTFF_SAVE_X6 :: PTFF_SAVE_X7 ::
  PTFF_SAVE_X8 :: PTFF_SAVE_X9 :: PTFF_SAVE_X10 :: PTFF_SAVE_X11 ::
  PTFF_SAVE_X12 :: PTFF_SAVE_X13 :: PTFF_SAVE_X14 :: PTFF_SAVE_X15 ::
  PTFF_SAVE_X16 :: PTFF_SAVE_X17 :: PTFF_SAVE_X18 :: nil.

Definition PTFF_SAVE_flags : list Z :=
  PTFF_SAVE_preserved ++ PTFF_SAVE_SP :: PTFF_SAVE_scratch ++
  PTFF_SAVE_FP :: PTFF_SAVE_LR :: nil.

(** *** MOVL64 *)

(** [movz rd, #imm16, lsl #shift] *)
Definition movz (rd : reg) (imm16 shift : Z) (m : machine) : machine :=
  set_reg m rd (Z.shiftl imm16 shift).

(** [movk rd, #imm16, lsl #shift]: the other bits of [rd] are kept. *)
Definition movk (rd : reg) (imm16 shift : Z) (m : machine) : machine :=
  set_reg m rd (Z.lor (Z.land (get_reg m rd) (Z.lnot (Z.shiftl 0xffff shift)))
                      (Z.shiftl imm16 shift)).

(** The string variable [MovInstr] of the macro. *)
Inductive mov_wide : Type :=
| MOVZ
| MOVK.

Definition mov_wide_instr (MovInstr : mov_wide) : reg -> Z -> Z -> machine -> machine :=
  match MovInstr with
  | MOVZ => movz
  | MOVK => movk
  end.

Section MovL64.

(** The first instruction of the macro takes its immediate from
    [$Constant], which is not a parameter of the macro: what stands there
    is not known and stays a parameter. *)
Variable Constant : Z.

(** [MOVL64 $Reg, $ConstantLo, $ConstantHi] *)
Definition MOVL64 (Reg : reg) (ConstantLo ConstantHi : Z) (m : machine) : machine :=
  let MovInstr := MOVZ in
  let '(MovInstr, m) :=
    if negb (Z.land (Z.shiftr ConstantHi 16) 0xffff =? 0)
    then (MOVK,
          mov_wide_instr MovInstr Reg (Z.land (Z.shiftr Constant 16) 0xffff) 48 m)
    else (MovInstr, m) in
  let '(MovInstr, m) :=
    if negb (Z.land ConstantHi 0xffff =? 0)
    then (MOVK, mov_wide_instr MovInstr Reg (Z.land ConstantHi 0xffff) 32 m)
    else (MovInstr, m) in
  let '(MovInstr, m) :=
    if negb (Z.land (Z.shiftr ConstantLo 16) 0xffff =? 0)
    then (MOVK,
          mov_wide_instr MovInstr Reg (Z.land (Z.shiftr ConstantLo 16) 0xffff) 16 m)
    else (MovInstr, m) in
  mov_wide_instr MovInstr Reg (Z.land ConstantLo 0xffff) 0 m.

End MovL64.

(** *** Popping the transition frame *)

(** [ldp rt1, rt2, [rn, #off]] *)
Definition ldp (rt1 rt2 rn : reg) (off : Z) (m : machine) : machine :=
  let a := ptr_add (get_reg m rn) off in
  set_reg (set_reg m rt1 (load m a)) rt2 (load m (ptr_add a 8)).

(** [ldp rt1, rt2, [rn], #off]: the pair is read at the base, which then
    moves by [off]. *)
Definition ldp_post (rt1 rt2 rn : reg) (off : Z) (m : machine) : machine :=
  let a := get_reg m rn in
  set_reg (set_reg (set_reg m rt1 (load m (ptr_add a 0))) rt2 (load m (ptr_add a 8)))
          rn (ptr_add a off).

(** Modelled from the spec: [EPILOG_RESTORE_REG_PAIR] is a macro of the
    operating system's ksarm64.h, the counterpart of [PROLOG_SAVE_REG_PAIR].
    The spec has the frame unwound "by restoring registers from the saved
    slots and releasing the stack space", and the source says of its uses
    "Pop the frame and restore register state": it is the load of the pair
    from [[sp, #off]], and with [!] the load from [[sp]] after which [sp]
    moves up by [off]. *)
Definition EPILOG_RESTORE_REG_PAIR (r1 r2 : reg) (off : Z) (writeback : bool)
    (m : machine) : machine :=
  if writeback then ldp_post r1 r2 SP off m else ldp r1 r2 SP off m.

(** [POP_COOP_PINVOKE_FRAME] *)
Definition POP_COOP_PINVOKE_FRAME (m : machine) : machine :=
  let m := EPILOG_RESTORE_REG_PAIR (X 19) (X 20) 0x20 false m in
  let m := EPILOG_RESTORE_REG_PAIR (X 21) (X 22) 0x30 false m in
  let m := EPILOG_RESTORE_REG_PAIR (X 23) (X 24) 0x40 false m in
  let m := EPILOG_RESTORE_REG_PAIR (X 25) (X 26) 0x50 false m in
  let m := EPILOG_RESTORE_REG_PAIR (X 27) (X 28) 0x60 false m in
  EPILOG_RESTORE_REG_PAIR fp lr 0x80 true m.

(** The offsets in the frame that [PUSH_COOP_PINVOKE_FRAME] stores to:
    [fp], [lr], the flags, [x19]..[x28] and the caller's [sp].  The slot at
    [0x10], reserved for the [Thread*], and the slot at [0x78] are not among
    them. *)
Definition frame_offsets_written : list Z :=
  0x00 :: 0x08 :: 0x18 :: 0x20 :: 0x28 :: 0x30 :: 0x38 :: 0x40 :: 0x48 ::
  0x50 :: 0x58 :: 0x60 :: 0x68 :: 0x70 :: nil.

(** The registers [POP_COOP_PINVOKE_FRAME] restores. *)
Definition frame_restored (r : reg) : bool :=
  match r with
  | X n => (19 <=? n)%nat && (n <=? 30)%nat
  | _ => false
  end.

End Arm64.

(** ** The heap registry (gcheaputilities.h) *)

Module HeapRegistry.

Section Heap.

(** The heap objects [g_pGCHeap] can point to.  [IGCHeap] is an
    interface declared in gcinterface.h; calls of its virtual methods
    are events, answered by whichever heap implementation is loaded. *)
Variable IGCHeap : Type.

Variant IGCHeapE : Type -> Type :=
| IsGCInProgressHelper (heap : IGCHeap) (bConsiderGCStart : bool) : IGCHeapE bool
| WaitUntilGCComplete (heap : IGCHeap) (bConsiderGCStart : bool) : IGCHeapE Z
| NullDereference : IGCHeapE Datatypes.Empty_set.

(** [p->method(...)]: a call through a null pointer does not return. *)
Definition call_virtual {T : Type} (p : option IGCHeap)
    (method : IGCHeap -> IGCHeapE T) : itree IGCHeapE T :=
  match p with
  | Some heap => ITree.trigger (method heap)
  | None =>
      ITree.bind (ITree.trigger NullDereference)
                 (fun v : Datatypes.Empty_set => match v with end)
  end.

(** The global [g_pGCHeap]: [None] is [nullptr]. *)
Variable g_pGCHeap : option IGCHeap.

(** [GCHeapUtilities::GetGCHeap()]; the [assert] is a check of checked
    builds. *)
Definition GetGCHeap : option IGCHeap := g_pGCHeap.

(** [GCHeapUtilities::IsGCHeapInitialized()] *)
Definition IsGCHeapInitialized : bool :=
  match g_pGCHeap with
  | Some _ => true
  | None => false
  end.

(** [GCHeapUtilities::IsGCInProgress(bConsiderGCStart)] *)
Definition IsGCInProgress (bConsiderGCStart : bool) : itree IGCHeapE bool :=
  if IsGCHeapInitialized
  then call_virtual GetGCHeap (fun heap => IsGCInProgressHelper heap bConsiderGCStart)
  else Ret false.

(** [GCHeapUtilities::WaitForGCCompletion(bConsiderGCStart)]: the value
    of [WaitUntilGCComplete] is dropped. *)
Definition WaitForGCCompletion (bConsiderGCStart : bool) : itree IGCHeapE unit :=
  if IsGCHeapInitialized
  then ITree.bind
         (call_virtual GetGCHeap (fun heap => WaitUntilGCComplete heap bConsiderGCStart))
         (fun _ => Ret tt)
  else Ret tt.

End Heap.

Arguments IsGCInProgressHelper {IGCHeap} heap bConsiderGCStart.
Arguments WaitUntilGCComplete {IGCHeap} heap bConsiderGCStart.
Arguments NullDereference {IGCHeap}.
Arguments call_virtual {IGCHeap T} p method.
Arguments GetGCHeap {IGCHeap} g_pGCHeap.
Arguments IsGCHeapInitialized {IGCHeap} g_pGCHeap.
Arguments IsGCInProgress {IGCHeap} g_pGCHeap bConsiderGCStart.
Arguments WaitForGCCompletion {IGCHeap} g_pGCHeap bConsiderGCStart.

(** A heap implementation for examples: the state is the number of
    collections still running; waiting lets them finish. *)
Definition counting_heap : IGCHeapE unit ~> Monads.stateT nat (itree void1) :=
  fun _ e s =>
    match e with
    | IsGCInProgressHelper _ _ => Ret (s, negb (Nat.eqb s 0))
    | WaitUntilGCComplete _ _ => Ret (0%nat, 0)
    | NullDereference => ITree.spin
    end.

(** Two more heap implementations for examples.  They answer the two
    virtual methods as [counting_heap] does and differ in what a call
    through a null pointer comes to: the first never returns from it, the
    second raises a fault. *)
Variant faultE : Type -> Type :=
| Fault : faultE Datatypes.Empty_set.

Definition hanging_heap : IGCHeapE unit ~> Monads.stateT nat (itree faultE) :=
  fun _ e s =>
    match e with
    | IsGCInProgressHelper _ _ => Ret (s, negb (Nat.eqb s 0))
    | WaitUntilGCComplete _ _ => Ret (0%nat, 0)
    | NullDereference => ITree.spin
    end.

Definition faulting_heap : IGCHeapE unit ~> Monads.stateT nat (itree faultE) :=
  fun _ e s =>
    match e with
    | IsGCInProgressHelper _ _ => Ret (s, negb (Nat.eqb s 0))
    | WaitUntilGCComplete _ _ => Ret (0%nat, 0)
    | NullDereference =>
        ITree.bind (ITree.trigger Fault)
                   (fun v : Datatypes.Empty_set => match v with end)
    end.

End HeapRegistry.

(** * Properties *)

Import Machine64.

(** ** The dirty-page table *)

Import WriteWatch.

Section WriteWatchFacts.

Variable shift : Z.

Lemma table_store_same t i v : table_store t i v i = v.
Proof. unfold table_store. now rewrite Z.eqb_refl. Qed.

Lemma table_store_other t i v j : j <> i -> table_store t i v j = t j.
Proof.
  intros Hji. unfold table_store.
  destruct (Z.eqb_spec j i); [contradiction | reflexivity].
Qed.

Lemma to_uchar_all_ones : to_uchar (Z.lnot 0) = Byte.xff.
Proof. reflexivity. Qed.

(** What one [SoftwareWriteWatchSetDirty] leaves in each entry. *)
Lemma SetDirty_entry address write_size t j :
  SoftwareWriteWatchSetDirty shift address write_size t j =
  if (j =? Z.shiftr address shift) && Byte.eqb (t j) Byte.x00
  then Byte.xff else t j.
Proof.
  unfold SoftwareWriteWatchSetDirty.
  destruct (Z.eqb_spec j (Z.shiftr address shift)) as [->|Hne]; cbn [andb].
  - destruct (Byte.eqb (t (Z.shiftr address shift)) Byte.x00);
      [apply table_store_same | reflexivity].
  - destruct (Byte.eqb (t (Z.shiftr address shift)) Byte.x00);
      [now apply table_store_other | reflexivity].
Qed.

(** C5. [SoftwareWriteWatchSetDirty] is idempotent: marking the same
    address a second time gives the very table the first marking gave. *)
Theorem SetDirty_idempotent address write_size write_size' t :
  SoftwareWriteWatchSetDirty shift address write_size'
    (SoftwareWriteWatchSetDirty shift address write_size t) =
  SoftwareWriteWatchSetDirty shift address write_size t.
Proof.
  unfold SoftwareWriteWatchSetDirty.
  destruct (Byte.eqb (t (Z.shiftr address shift)) Byte.x00) eqn:E.
  - now rewrite table_store_same.
  - now rewrite E.
Qed.

(** C9. [SoftwareWriteWatchSetDirty] writes the entry of the address's
    page only when that entry is zero, and then writes [0xFF]; an entry
    that holds any nonzero value keeps exactly that value (the whole table
    is then left as it was); no entry of another page is ever modified. *)
Theorem SetDirty_writes_only_zero_entry address write_size t :
  let page := Z.shiftr address shift in
  let t' := SoftwareWriteWatchSetDirty shift address write_size t in
  (t page = Byte.x00 -> t' page = Byte.xff) /\
  (t page <> Byte.x00 -> t' page = t page /\ t' = t) /\
  (forall j, j <> page -> t' j = t j).
Proof.
  intros page t'. subst page t'. repeat split.
  - intros Hz. rewrite SetDirty_entry, Z.eqb_refl, Hz. reflexivity.
  - rewrite SetDirty_entry, Z.eqb_refl. cbn [andb].
    destruct (Byte.eqb (t (Z.shiftr address shift)) Byte.x00) eqn:E;
      [|reflexivity].
    apply Byte.byte_dec_bl in E. contradiction.
  - unfold SoftwareWriteWatchSetDirty.
    destruct (Byte.eqb (t (Z.shiftr address shift)) Byte.x00) eqn:E;
      [|reflexivity].
    apply Byte.byte_dec_bl in E. contradiction.
  - intros j Hj. rewrite SetDirty_entry.
    destruct (Z.eqb_spec j (Z.shiftr address shift)); [contradiction|reflexivity].
Qed.

(** *** Pages and ranges *)

Hypothesis shift_nonneg : 0 <= shift.

Lemma page_size_pos : 0 < 2 ^ shift.
Proof. now apply Z.pow_pos_nonneg. Qed.

(** The pages a range without wrap-around meets are those between the
    page of its first byte and the page of its last byte. *)
Lemma page_intersects_iff page address length :
  1 <= length ->
  page_intersects shift page address length <->
  Z.shiftr address shift <= page <= Z.shiftr (address + length - 1) shift.
Proof.
  intros Hlen. pose proof page_size_pos as HP.
  unfold page_intersects. rewrite !Z.shiftr_div_pow2 by assumption.
  split.
  - intros (a & Ha & <-). rewrite Z.shiftr_div_pow2 by assumption.
    split; apply Z.div_le_mono; lia.
  - intros [Hlo Hhi].
    exists (Z.max address (page * 2 ^ shift)).
    rewrite Z.shiftr_div_pow2 by assumption.
    pose proof (Z.mul_div_le (address + length - 1) (2 ^ shift) HP) as Hend.
    pose proof (Z.mul_div_le address (2 ^ shift) HP) as Hbase.
    assert (page * 2 ^ shift <= address + length - 1) by nia.
    split; [lia|].
    destruct (Z.max_spec address (page * 2 ^ shift)) as [[Hlt ->]|[Hge ->]].
    + now apply Z.div_mul, Z.neq_sym, Z.lt_neq.
    + apply Z.le_antisymm; [assumption|].
      apply Z.div_le_lower_bound; lia.
Qed.

(** What [SoftwareWriteWatchSetDirtyRegion] leaves in each entry when the
    address is not null, the range is not empty and it does not wrap
    around the address space. *)
Lemma SetDirtyRegion_entry address length t j :
  0 < address -> 1 <= length -> address + length <= 2 ^ 64 ->
  SoftwareWriteWatchSetDirtyRegion shift address length t j =
  if (Z.shiftr address shift <=? j) && (j <=? Z.shiftr (address + length - 1) shift)
  then Byte.xff else t j.
Proof.
  intros Haddr Hlen Hfit. pose proof page_size_pos as HP.
  unfold SoftwareWriteWatchSetDirtyRegion, memset, wrap64, modulus.
  rewrite to_uchar_all_ones.
  rewrite (Z.mod_small (address + length - 1)) by lia.
  assert (Hcount : 0 <= Z.shiftr address shift <= Z.shiftr (address + length - 1) shift
                   /\ Z.shiftr (address + length - 1) shift
                      - Z.shiftr address shift + 1 < 2 ^ 64).
  { rewrite !Z.shiftr_div_pow2 by assumption.
    pose proof (Z.mul_div_le (address + length - 1) (2 ^ shift) HP) as Hend.
    pose proof (Z.mul_div_le address (2 ^ shift) HP) as Hbase.
    pose proof (Z.mul_succ_div_gt address (2 ^ shift) HP) as Hbase'.
    assert (0 <= address / 2 ^ shift) by (apply Z.div_pos; lia).
    assert (address / 2 ^ shift <= (address + length - 1) / 2 ^ shift)
      by (apply Z.div_le_mono; lia).
    split; [lia|].
    destruct (Z.eq_dec (2 ^ shift) 1) as [E|E].
    - rewrite E in *. rewrite !Z.div_1_r. lia.
    - nia. }
  set (base := Z.shiftr address shift) in *.
  set (last := Z.shiftr (address + length - 1) shift) in *.
  clearbody base last.
  rewrite (Z.mod_small (last - base + 1)) by lia.
  destruct (Z.leb_spec base j); cbn [andb]; [|reflexivity].
  destruct (Z.ltb_spec j (base + (last - base + 1))), (Z.leb_spec j last);
    try reflexivity; lia.
Qed.

(** The two markers leave the same table exactly when the entry of the
    page held zero or [0xFF]: [SoftwareWriteWatchSetDirty] keeps any other
    value, the [memset] overwrites it. *)
Lemma SetDirtyRegion_one_page_vs_SetDirty address length address' write_size t :
  0 < address -> 1 <= length -> address + length <= 2 ^ 64 ->
  Z.shiftr (address + length - 1) shift = Z.shiftr address shift ->
  Z.shiftr address' shift = Z.shiftr address shift ->
  (forall j, SoftwareWriteWatchSetDirtyRegion shift address length t j =
             SoftwareWriteWatchSetDirty shift address' write_size t j) <->
  (t (Z.shiftr address shift) = Byte.x00 \/ t (Z.shiftr address shift) = Byte.xff).
Proof.
  intros Haddr Hlen Hfit Hone Hsame.
  set (page := Z.shiftr address shift) in *.
  assert (Hentry : forall j,
    SoftwareWriteWatchSetDirtyRegion shift address length t j =
    if j =? page then Byte.xff else t j).
  { intros j. rewrite SetDirtyRegion_entry by assumption. fold page. rewrite Hone.
    destruct (Z.leb_spec page j), (Z.leb_spec j page), (Z.eqb_spec j page);
      cbn [andb]; try reflexivity; lia. }
  split.
  - intros Hall. specialize (Hall page).
    rewrite Hentry, SetDirty_entry, Hsame, Z.eqb_refl in Hall. cbn [andb] in Hall.
    destruct (Byte.eqb (t page) Byte.x00) eqn:E.
    + left. now apply Byte.byte_dec_bl.
    + right. now symmetry.
  - intros Hv j. rewrite Hentry, SetDirty_entry, Hsame.
    destruct (Z.eqb_spec j page) as [->|]; cbn [andb]; [|reflexivity].
    destruct Hv as [-> | ->]; reflexivity.
Qed.

(** C4 (amended). For a non-null address and a range
    [[address, address+length)] that is not empty and does not wrap around
    the address space, [SoftwareWriteWatchSetDirtyRegion] sets to [0xFF]
    the entries of exactly the pages that meet the range and leaves every
    other entry as it was.  When the range lies within one page, the
    table it leaves is the table one [SoftwareWriteWatchSetDirty] on an
    address of that page leaves if and only if the entry of the page held
    zero or [0xFF] before. *)
Theorem SetDirtyRegion_marks_intersecting_pages address length t :
  0 < address -> 1 <= length -> address + length <= 2 ^ 64 ->
  let t' := SoftwareWriteWatchSetDirtyRegion shift address length t in
  let page := Z.shiftr address shift in
  (forall p, page_intersects shift p address length -> t' p = Byte.xff) /\
  (forall p, ~ page_intersects shift p address length -> t' p = t p) /\
  (Z.shiftr (address + length - 1) shift = page ->
   forall address' write_size,
     Z.shiftr address' shift = page ->
     (forall j, t' j = SoftwareWriteWatchSetDirty shift address' write_size t j) <->
     (t page = Byte.x00 \/ t page = Byte.xff)).
Proof.
  intros Haddr Hlen Hfit t' page. subst t' page. split; [|split].
  - intros p Hp. apply page_intersects_iff in Hp; [|assumption].
    rewrite SetDirtyRegion_entry by assumption.
    destruct (Z.leb_spec (Z.shiftr address shift) p),
             (Z.leb_spec p (Z.shiftr (address + length - 1) shift));
      cbn [andb]; try reflexivity; lia.
  - intros p Hp. rewrite SetDirtyRegion_entry by assumption.
    destruct (Z.leb_spec (Z.shiftr address shift) p),
             (Z.leb_spec p (Z.shiftr (address + length - 1) shift));
      cbn [andb]; try reflexivity.
    exfalso. apply Hp. apply page_intersects_iff; [assumption | lia].
  - intros Hone address' write_size Hsame.
    now apply SetDirtyRegion_one_page_vs_SetDirty.
Qed.

End WriteWatchFacts.

Lemma SetDirty_writes_only_zero_entry_witness :
  let t := table_store clean_table 5 Byte.x01 in
  SoftwareWriteWatchSetDirty 12 0x6008 8 t 6 = Byte.xff /\
  SoftwareWriteWatchSetDirty 12 0x5008 8 t 5 = Byte.x01 /\
  SoftwareWriteWatchSetDirty 12 0x6008 8 t 5 = Byte.x01.
Proof.
  intros t.
  pose proof (SetDirty_writes_only_zero_entry 12 0x6008 8 t) as (Hz & _ & Ho).
  pose proof (SetDirty_writes_only_zero_entry 12 0x5008 8 t) as (_ & Hn & _).
  split; [|split].
  - apply Hz. reflexivity.
  - apply Hn. discriminate.
  - apply (Ho 5). discriminate.
Defined.

Lemma SetDirtyRegion_marks_intersecting_pages_witness :
  let t' := SoftwareWriteWatchSetDirtyRegion 12 0x5000 0x3000 clean_table in
  t' 4 = Byte.x00 /\ t' 5 = Byte.xff /\ t' 6 = Byte.xff /\ t' 7 = Byte.xff /\
  t' 8 = Byte.x00 /\
  (forall j, SoftwareWriteWatchSetDirtyRegion 12 0x5000 0x1000 clean_table j =
             SoftwareWriteWatchSetDirty 12 0x5008 8 clean_table j).
Proof.
  intros t'.
  assert (H12 : 0 <= 12) by lia.
  assert (Ha : 0 < 0x5000) by lia.
  assert (Hfit3 : 0x5000 + 0x3000 <= 2 ^ 64) by (vm_compute; discriminate).
  assert (Hfit1 : 0x5000 + 0x1000 <= 2 ^ 64) by (vm_compute; discriminate).
  assert (Hlen3 : 1 <= 0x3000) by lia.
  assert (Hlen1 : 1 <= 0x1000) by lia.
  pose proof (SetDirtyRegion_marks_intersecting_pages 12 H12 0x5000 0x3000
                clean_table Ha Hlen3 Hfit3) as (Hin & Hout & _).
  pose proof (SetDirtyRegion_marks_intersecting_pages 12 H12 0x5000 0x1000
                clean_table Ha Hlen1 Hfit1) as (_ & _ & Hone).
  assert (Hmiss : forall p, p < 5 \/ 7 < p -> ~ page_intersects 12 p 0x5000 0x3000).
  { intros p Hp Hi. apply (page_intersects_iff 12 H12) in Hi; [|lia].
    change (Z.shiftr 0x5000 12) with 5 in Hi.
    change (Z.shiftr (0x5000 + 0x3000 - 1) 12) with 7 in Hi. lia. }
  split; [|split; [|split; [|split; [|split]]]].
  - apply (Hout 4). apply Hmiss. lia.
  - apply Hin. exists 0x5000. split; [lia | reflexivity].
  - apply Hin. exists 0x6000. split; [lia | reflexivity].
  - apply Hin. exists 0x7fff. split; [lia | reflexivity].
  - apply (Hout 8). apply Hmiss. lia.
  - apply (Hone eq_refl 0x5008 8 eq_refl). left. reflexivity.
Defined.

(** C4, as stated, fails on the code in two ways.  With an empty range
    starting inside page 5 no page meets the range, yet entry 5 goes from
    zero to [0xFF].  With entry 5 holding [0x01], the range of exactly page 5
    leaves [0xFF] there while [SoftwareWriteWatchSetDirty] on that page
    leaves [0x01]. *)
Lemma SetDirtyRegion_counterexample :
  (~ page_intersects 12 5 0x5001 0 /\
   clean_table 5 = Byte.x00 /\
   SoftwareWriteWatchSetDirtyRegion 12 0x5001 0 clean_table 5 = Byte.xff) /\
  (let t := table_store clean_table 5 Byte.x01 in
   SoftwareWriteWatchSetDirtyRegion 12 0x5000 0x1000 t 5 = Byte.xff /\
   SoftwareWriteWatchSetDirty 12 0x5000 8 t 5 = Byte.x01).
Proof.
  split; [split; [|split]|split].
  - intros (a & Ha & _). lia.
  - reflexivity.
  - reflexivity.
  - reflexivity.
  - reflexivity.
Qed.

(** ** The allocation context *)

Import AllocContext.

Lemma Min_spec v1 v2 : Min v1 v2 = Z.min v1 v2.
Proof. unfold Min. destruct (Z.ltb_spec v1 v2); lia. Qed.

Lemma Min_le_r v1 v2 : Min v1 v2 <= v2.
Proof. rewrite Min_spec. apply Z.le_min_r. Qed.

Lemma Min_r v1 v2 : v2 <= v1 -> Min v1 v2 = v2.
Proof. rewrite Min_spec. apply Z.min_r. Qed.

Lemma SamplingDistributionMean_value :
  SamplingDistributionMean = 102400 /\ 10 ^ 5 <= SamplingDistributionMean < 10 ^ 6.
Proof. unfold SamplingDistributionMean. lia. Qed.

Section AllocContextFacts.

Variable CLRRandom : Type.
Variable NextDouble : CLRRandom -> double * CLRRandom.
Variable log : double -> double.
Variable int_of_unrepresentable : double -> Z.

Local Abbreviation ComputeGeometricRandom :=
  (ComputeGeometricRandom CLRRandom NextDouble log int_of_unrepresentable).
Local Abbreviation UpdateCombinedLimit :=
  (UpdateCombinedLimit CLRRandom NextDouble log int_of_unrepresentable).
Local Abbreviation UpdateCombinedLimit_default :=
  (UpdateCombinedLimit_default CLRRandom NextDouble log int_of_unrepresentable).

(** Neither branch of the recomputation touches the window itself. *)
Lemma UpdateCombinedLimit_window samplingEnabled pRandom this :
  gc_alloc_context (fst (UpdateCombinedLimit samplingEnabled pRandom this)) =
  gc_alloc_context this.
Proof.
  unfold AllocContext.UpdateCombinedLimit, AllocContext.ComputeGeometricRandom.
  destruct samplingEnabled; cbn [negb]; [|reflexivity].
  destruct (NextDouble pRandom). reflexivity.
Qed.

(** The limit is the window's end, or the smaller of the sampling limit
    and the window's end. *)
Lemma UpdateCombinedLimit_limit samplingEnabled pRandom this :
  combined_limit (fst (UpdateCombinedLimit samplingEnabled pRandom this)) =
  if samplingEnabled
  then Min (ptr_add (alloc_ptr (gc_alloc_context this))
                    (fst (ComputeGeometricRandom pRandom)))
           (alloc_limit (gc_alloc_context this))
  else alloc_limit (gc_alloc_context this).
Proof.
  unfold AllocContext.UpdateCombinedLimit, AllocContext.ComputeGeometricRandom.
  destruct samplingEnabled; cbn [negb]; [|reflexivity].
  destruct (NextDouble pRandom). reflexivity.
Qed.

(** C1. After every call of [UpdateCombinedLimit], with sampling enabled
    or disabled and through either overload, [combined_limit] is at most
    [alloc_limit], for a context that had [alloc_ptr <= alloc_limit] on
    entry. *)
Theorem UpdateCombinedLimit_combined_le_alloc_limit pRandom this :
  alloc_ptr (gc_alloc_context this) <= alloc_limit (gc_alloc_context this) ->
  (forall samplingEnabled,
     let this' := fst (UpdateCombinedLimit samplingEnabled pRandom this) in
     combined_limit this' <= alloc_limit (gc_alloc_context this')) /\
  (forall FEATURE_EVENT_TRACE ETW_TRACING_CATEGORY_ENABLED,
     let this' := fst (UpdateCombinedLimit_default FEATURE_EVENT_TRACE
                         ETW_TRACING_CATEGORY_ENABLED pRandom this) in
     combined_limit this' <= alloc_limit (gc_alloc_context this')).
Proof.
  intros _.
  assert (H : forall samplingEnabled,
    combined_limit (fst (UpdateCombinedLimit samplingEnabled pRandom this)) <=
    alloc_limit (gc_alloc_context
                   (fst (UpdateCombinedLimit samplingEnabled pRandom this)))).
  { intros samplingEnabled.
    rewrite UpdateCombinedLimit_window, UpdateCombinedLimit_limit.
    destruct samplingEnabled; [apply Min_le_r | apply Z.le_refl]. }
  split.
  - exact H.
  - intros f e. apply H.
Qed.

(** C2. With sampling disabled, [UpdateCombinedLimit] leaves
    [combined_limit] equal to [alloc_limit] whatever [combined_limit] held
    before, draws no random number and keeps the window; so does the
    overload without the flag whenever [IsRandomizedSamplingEnabled]
    answers no.  After [init], [combined_limit] equals [alloc_limit] as
    well (both are null). *)
Theorem UpdateCombinedLimit_sampling_disabled pRandom prior window :
  let this := {| combined_limit := prior; gc_alloc_context := window |} in
  let this' := {| combined_limit := alloc_limit window; gc_alloc_context := window |} in
  UpdateCombinedLimit false pRandom this = (this', pRandom) /\
  combined_limit this' = alloc_limit (gc_alloc_context this') /\
  (forall FEATURE_EVENT_TRACE ETW_TRACING_CATEGORY_ENABLED,
     IsRandomizedSamplingEnabled FEATURE_EVENT_TRACE ETW_TRACING_CATEGORY_ENABLED
       = false ->
     UpdateCombinedLimit_default FEATURE_EVENT_TRACE ETW_TRACING_CATEGORY_ENABLED
       pRandom this = (this', pRandom)) /\
  combined_limit (init this) = alloc_limit (gc_alloc_context (init this)) /\
  alloc_limit (gc_alloc_context (init this)) = 0.
Proof.
  intros this this'. split; [reflexivity|]. split; [reflexivity|].
  split; [|split; reflexivity].
  intros f e Hoff. unfold AllocContext.UpdateCombinedLimit_default.
  now rewrite Hoff.
Qed.

End AllocContextFacts.

Lemma UpdateCombinedLimit_combined_le_alloc_limit_witness :
  let this := {| combined_limit := 0x1800;
                 gc_alloc_context := {| alloc_ptr := 0x1000; alloc_limit := 0x2000 |} |} in
  0x1000 <= 0x2000 /\
  combined_limit
    (fst (UpdateCombinedLimit (list double) replay_NextDouble tangent_log
            indefinite_int true (one_half :: nil) this))
  <= 0x2000 /\
  combined_limit
    (fst (UpdateCombinedLimit (list double) replay_NextDouble tangent_log
            indefinite_int false (one_half :: nil) this))
  <= 0x2000.
Proof.
  intros this.
  assert (Hwin : alloc_ptr (gc_alloc_context this) <= alloc_limit (gc_alloc_context this))
    by (cbn; lia).
  pose proof (UpdateCombinedLimit_combined_le_alloc_limit (list double)
                replay_NextDouble tangent_log indefinite_int
                (one_half :: nil) this Hwin) as [H _].
  split; [lia|]. split.
  - pose proof (H true) as Ht. cbn zeta in Ht.
    rewrite UpdateCombinedLimit_window in Ht. exact Ht.
  - pose proof (H false) as Hf. cbn zeta in Hf.
    rewrite UpdateCombinedLimit_window in Hf. exact Hf.
Defined.

Lemma UpdateCombinedLimit_sampling_disabled_witness :
  let window := {| alloc_ptr := 0x1000; alloc_limit := 0x2000 |} in
  let this := {| combined_limit := 0x1234; gc_alloc_context := window |} in
  IsRandomizedSamplingEnabled false true = false /\
  UpdateCombinedLimit_default (list double) replay_NextDouble tangent_log
    indefinite_int false true (one_half :: nil) this =
    ({| combined_limit := 0x2000; gc_alloc_context := window |}, (one_half :: nil)) /\
  UpdateCombinedLimit (list double) replay_NextDouble tangent_log
    indefinite_int false (one_half :: nil) this =
    ({| combined_limit := 0x2000; gc_alloc_context := window |}, (one_half :: nil)).
Proof.
  intros window this.
  pose proof (UpdateCombinedLimit_sampling_disabled (list double) replay_NextDouble
                tangent_log indefinite_int (one_half :: nil) 0x1234 window)
    as (Hoff & _ & Hdefault & _).
  split; [reflexivity|]. split; [|exact Hoff].
  apply (Hdefault false true). reflexivity.
Defined.

(** ** The ARM64 macros *)

Import Arm64.

Lemma reg_eqb_spec (a b : reg) : reflect (a = b) (reg_eqb a b).
Proof.
  destruct a as [n| |], b as [k| |]; cbn; try (constructor; congruence).
  destruct (Nat.eqb_spec n k); constructor; congruence.
Qed.

Lemma get_reg_set_reg_same m r v : r <> XZR -> get_reg (set_reg m r v) r = v.
Proof.
  intros Hr. destruct r as [n| |]; [|contradiction|]; cbn; [|reflexivity].
  now rewrite Nat.eqb_refl.
Qed.

Lemma get_reg_set_reg_other m r v r' : r' <> r -> get_reg (set_reg m r v) r' = get_reg m r'.
Proof.
  intros Hr. destruct r as [n| |]; [|reflexivity|]; destruct r' as [k| |];
    cbn; try reflexivity; try congruence.
  destruct (Nat.eqb_spec k n); congruence.
Qed.

Lemma mem_set_reg m r v : mem (set_reg m r v) = mem m.
Proof. destruct r; reflexivity. Qed.

Lemma load_set_reg m r v a : load (set_reg m r v) a = load m a.
Proof. unfold load. now rewrite mem_set_reg. Qed.

Lemma get_reg_store m a v r : get_reg (store m a v) r = get_reg m r.
Proof. destruct r; reflexivity. Qed.

Lemma load_store_same m a v : load (store m a v) a = v.
Proof. unfold load, store. cbn. now rewrite Z.eqb_refl. Qed.

Lemma load_store_other m a v a' : a' <> a -> load (store m a v) a' = load m a'.
Proof.
  intros Ha. unfold load, store. cbn.
  destruct (Z.eqb_spec a' a); [contradiction | reflexivity].
Qed.

Lemma ptr_add_0_r a : 0 <= a < 2 ^ 64 -> ptr_add a 0 = a.
Proof.
  intros Ha. unfold ptr_add, wrap64, modulus. rewrite Z.add_0_r.
  now apply Z.mod_small.
Qed.

Section UnhijackFacts.

Variable OFFSETOF__Thread__m_pvHijackedReturnAddress : Z.
Variable OFFSETOF__Thread__m_ppvHijackedReturnAddressLocation : Z.

Local Abbreviation off_ra := OFFSETOF__Thread__m_pvHijackedReturnAddress.
Local Abbreviation off_loc := OFFSETOF__Thread__m_ppvHijackedReturnAddressLocation.
Local Abbreviation UNHIJACK := (INLINE_THREAD_UNHIJACK off_ra off_loc).

(** Without a record the macro only loads the null address into
    [$trashReg1]. *)
Lemma UNHIJACK_no_record threadReg trashReg1 trashReg2 m :
  trashReg1 <> XZR -> 
  hijacked_return_address off_ra m (get_reg m threadReg) = 0 ->
  UNHIJACK threadReg trashReg1 trashReg2 m = set_reg m trashReg1 0.
Proof.
  intros H1 Hra. unfold INLINE_THREAD_UNHIJACK, ldr.
  unfold hijacked_return_address in Hra. rewrite Hra.
  now rewrite get_reg_set_reg_same, Z.eqb_refl.
Qed.

(** With a record the macro performs its three stores, in this order:
    the return address into the saved location, zero into the location
    field, zero into the address field. *)
Lemma UNHIJACK_record threadReg trashReg1 trashReg2 m :
  trashReg1 <> XZR -> trashReg2 <> XZR ->
  trashReg1 <> threadReg -> trashReg2 <> threadReg -> trashReg1 <> trashReg2 ->
  let thread := get_reg m threadReg in
  let ra := hijacked_return_address off_ra m thread in
  let loc := hijacked_return_address_location off_loc m thread in
  ra <> 0 ->
  UNHIJACK threadReg trashReg1 trashReg2 m =
  store (store (store (set_reg (set_reg m trashReg1 ra) trashReg2 loc)
                      (ptr_add loc 0) ra)
               (ptr_add thread off_loc) 0)
        (ptr_add thread off_ra) 0.
Proof.
  intros H1 H2 H1t H2t H12 thread ra loc Hra.
  unfold INLINE_THREAD_UNHIJACK, ldr, str.
  fold thread. fold (hijacked_return_address off_ra m thread). fold ra.
  rewrite get_reg_set_reg_same by assumption.
  destruct (Z.eqb_spec ra 0) as [|_]; [contradiction|].
  rewrite (get_reg_set_reg_other m trashReg1 ra threadReg) by congruence.
  fold thread. rewrite load_set_reg.
  fold (hijacked_return_address_location off_loc m thread). fold loc.
  rewrite !get_reg_store.
  rewrite (get_reg_set_reg_same _ trashReg2) by assumption.
  rewrite (get_reg_set_reg_other _ trashReg2 loc trashReg1) by congruence.
  rewrite (get_reg_set_reg_same _ trashReg1) by assumption.
  rewrite (get_reg_set_reg_other _ trashReg2 loc threadReg) by congruence.
  rewrite (get_reg_set_reg_other _ trashReg1 ra threadReg) by congruence.
  fold thread. reflexivity.
Qed.

(** C6. [INLINE_THREAD_UNHIJACK], used with three distinct registers
    none of which is [xzr]: when the saved return address of the thread is
    null, memory (the thread's state and the stack slot with it) is left
    as it was and only [$trashReg1] changes; otherwise both fields of the
    hijack record are zero afterwards: memory is what three stores make
    of it, the saved return address into the saved slot location, then zero
    into the location field, then zero into the address field; so the
    saved slot location holds the saved return address (the location being
    a stack slot, not a field of the record), and the rest of memory is
    left as it was.  The thread register keeps its value. *)
Theorem INLINE_THREAD_UNHIJACK_spec threadReg trashReg1 trashReg2 m :
  trashReg1 <> XZR -> trashReg2 <> XZR ->
  trashReg1 <> threadReg -> trashReg2 <> threadReg -> trashReg1 <> trashReg2 ->
  let thread := get_reg m threadReg in
  let ra_field := ptr_add thread off_ra in
  let loc_field := ptr_add thread off_loc in
  let ra := hijacked_return_address off_ra m thread in
  let loc := hijacked_return_address_location off_loc m thread in
  let slot := ptr_add loc 0 in
  let m' := UNHIJACK threadReg trashReg1 trashReg2 m in
  get_reg m' threadReg = thread /\
  (ra = 0 ->
     mem m' = mem m /\
     forall r, r <> trashReg1 -> get_reg m' r = get_reg m r) /\
  (ra <> 0 ->
     mem m' = mem (store (store (store m slot ra) loc_field 0) ra_field 0) /\
     hijacked_return_address off_ra m' thread = 0 /\
     hijacked_return_address_location off_loc m' thread = 0 /\
     (slot <> ra_field -> slot <> loc_field -> load m' slot = ra) /\
     (forall a, a <> slot -> a <> ra_field -> a <> loc_field ->
                load m' a = load m a)).
Proof.
  intros H1 H2 H1t H2t H12 thread ra_field loc_field ra loc slot m'.
  split; [|split].
  - destruct (Z.eq_dec ra 0) as [Hra|Hra]; subst m'.
    + rewrite UNHIJACK_no_record by assumption.
      now rewrite get_reg_set_reg_other by congruence.
    + rewrite UNHIJACK_record by assumption.
      rewrite !get_reg_store.
      now rewrite !get_reg_set_reg_other by congruence.
  - intros Hra. subst m'. rewrite UNHIJACK_no_record by assumption.
    split; [apply mem_set_reg|].
    intros r Hr. now apply get_reg_set_reg_other.
  - intros Hra. subst m'. rewrite UNHIJACK_record by assumption.
    fold thread ra loc slot ra_field loc_field.
    unfold hijacked_return_address, hijacked_return_address_location.
    fold ra_field loc_field.
    split; [unfold store; cbn [mem]; now rewrite !mem_set_reg|].
    split; [apply load_store_same|]. split; [|split].
    + destruct (Z.eq_dec loc_field ra_field) as [->|Hne];
        [apply load_store_same|].
      rewrite load_store_other by assumption. apply load_store_same.
    + intros Hs1 Hs2. rewrite !load_store_other by assumption.
      apply load_store_same.
    + intros a Ha1 Ha2 Ha3. rewrite !load_store_other by assumption.
      now rewrite !load_set_reg.
Qed.

End UnhijackFacts.

Lemma INLINE_THREAD_UNHIJACK_spec_witness :
  let m := {| regs := fun r => match r with X 2 => 0x1000 | _ => 0 end;
              mem := fun a => if a =? 0x1010 then 0xAAAA
                              else if a =? 0x1018 then 0x7000
                              else if a =? 0x7000 then 0xBEEF else 0 |} in
  let m' := INLINE_THREAD_UNHIJACK 0x10 0x18 (X 2) (X 3) (X 4) m in
  load m' 0x1010 = 0 /\ load m' 0x1018 = 0 /\ load m' 0x7000 = 0xAAAA /\
  load m' 0x7008 = load m 0x7008 /\
  mem (INLINE_THREAD_UNHIJACK 0x10 0x18 (X 2) (X 3) (X 4) m') = mem m'.
Proof.
  intros m m'.
  assert (N3 : X 3 <> XZR) by discriminate.
  assert (N4 : X 4 <> XZR) by discriminate.
  assert (N32 : X 3 <> X 2) by discriminate.
  assert (N42 : X 4 <> X 2) by discriminate.
  assert (N34 : X 3 <> X 4) by discriminate.
  pose proof (INLINE_THREAD_UNHIJACK_spec 0x10 0x18 (X 2) (X 3) (X 4) m
                N3 N4 N32 N42 N34) as (_ & _ & Hrec).
  pose proof (INLINE_THREAD_UNHIJACK_spec 0x10 0x18 (X 2) (X 3) (X 4) m'
                N3 N4 N32 N42 N34) as (_ & Hnone & _).
  cbn zeta in Hrec, Hnone.
  destruct Hrec as (_ & Hra & Hloc & Hslot & Hrest); [vm_compute; discriminate|].
  split; [exact Hra|]. split; [exact Hloc|].
  split; [apply Hslot; vm_compute; discriminate|].
  split; [apply (Hrest 0x7008); vm_compute; discriminate|].
  apply Hnone. reflexivity.
Defined.

(** *** The transition frame builder *)

Lemma PTFF_SAVE_X_one_bit n :
  (19 <= n <= 28)%nat -> PTFF_SAVE_X n = 2 ^ (Z.of_nat n - 19).
Proof.
  intros Hn.
  assert (n = 19 \/ n = 20 \/ n = 21 \/ n = 22 \/ n = 23 \/
          n = 24 \/ n = 25 \/ n = 26 \/ n = 27 \/ n = 28)%nat as Hc by lia.
  repeat (destruct Hc as [->|Hc]; [reflexivity|]). subst n. reflexivity.
Qed.

(** [PTFF_SAVE_ALL_PRESERVED] and [DEFAULT_FRAME_SAVE_FLAGS] as unions of
    single flags. *)
Lemma PTFF_SAVE_ALL_PRESERVED_union :
  PTFF_SAVE_ALL_PRESERVED = 0x3FF /\
  PTFF_SAVE_ALL_PRESERVED =
    List.fold_right Z.lor 0 (List.map PTFF_SAVE_X (List.seq 19 10)) /\
  (forall k, 0 <= k ->
     Z.testbit PTFF_SAVE_ALL_PRESERVED k = true <-> k < 10) /\
  Z.land PTFF_SAVE_ALL_PRESERVED PTFF_SAVE_SP = 0 /\
  DEFAULT_FRAME_SAVE_FLAGS = Z.lor PTFF_SAVE_ALL_PRESERVED PTFF_SAVE_SP.
Proof.
  split; [reflexivity|]. split; [reflexivity|]. split; [|split; reflexivity].
  intros k Hk. change PTFF_SAVE_ALL_PRESERVED with (Z.ones 10).
  destruct (Z.lt_ge_cases k 10) as [Hlt|Hge].
  - rewrite Z.ones_spec_low by lia. tauto.
  - rewrite Z.ones_spec_high by lia. split; [discriminate | lia].
Qed.

(** Address arithmetic modulo [2^64]. *)

Lemma ptr_add_assoc b x y : ptr_add (ptr_add b x) y = ptr_add b (x + y).
Proof.
  unfold ptr_add, wrap64, modulus.
  rewrite Z.add_mod_idemp_l by lia. now rewrite Z.add_assoc.
Qed.

Lemma ptr_add_idem b x : ptr_add (ptr_add b x) 0 = ptr_add b x.
Proof. rewrite ptr_add_assoc. now rewrite Z.add_0_r. Qed.

Lemma wrap64_ptr_add_back b x : 0 <= b < 2 ^ 64 -> wrap64 (ptr_add b (- x) + x) = b.
Proof.
  intros Hb. unfold ptr_add, wrap64, modulus.
  rewrite Z.add_mod_idemp_l by lia.
  replace (b + - x + x) with b by lia. now apply Z.mod_small.
Qed.

Lemma ptr_add_inj b x y :
  0 <= x < 2 ^ 64 -> 0 <= y < 2 ^ 64 -> ptr_add b x = ptr_add b y -> x = y.
Proof.
  unfold ptr_add, wrap64, modulus. intros Hx Hy He.
  Z.div_mod_to_equations. lia.
Qed.

Lemma ptr_add_eqb b x y :
  0 <= x < 2 ^ 64 -> 0 <= y < 2 ^ 64 ->
  (ptr_add b x =? ptr_add b y) = (x =? y).
Proof.
  intros Hx Hy.
  destruct (Z.eqb_spec (ptr_add b x) (ptr_add b y)) as [He|Hne],
           (Z.eqb_spec x y) as [Hxy|Hxy]; try reflexivity.
  - apply ptr_add_inj in He; [contradiction | assumption | assumption].
  - subst y. contradiction.
Qed.

(** The effect of each instruction of the frame builder on registers and
    on memory. *)

Lemma load_store m a v a' : load (store m a v) a' = if a' =? a then v else load m a'.
Proof. reflexivity. Qed.

Lemma get_reg_save_pair r1 r2 off m r :
  get_reg (PROLOG_SAVE_REG_PAIR r1 r2 off false m) r = get_reg m r.
Proof. unfold PROLOG_SAVE_REG_PAIR, stp. now rewrite !get_reg_store. Qed.

Lemma load_save_pair r1 r2 off m a :
  load (PROLOG_SAVE_REG_PAIR r1 r2 off false m) a =
  if a =? ptr_add (ptr_add (get_reg m SP) off) 8 then get_reg m r2
  else if a =? ptr_add (get_reg m SP) off then get_reg m r1
  else load m a.
Proof. reflexivity. Qed.

Lemma get_reg_push_pair_SP r1 r2 off m :
  get_reg (PROLOG_SAVE_REG_PAIR r1 r2 off true m) SP = ptr_add (get_reg m SP) off.
Proof. reflexivity. Qed.

Lemma get_reg_push_pair_X r1 r2 off m n :
  get_reg (PROLOG_SAVE_REG_PAIR r1 r2 off true m) (X n) = get_reg m (X n).
Proof. reflexivity. Qed.

Lemma load_push_pair r1 r2 off m a :
  load (PROLOG_SAVE_REG_PAIR r1 r2 off true m) a =
  if a =? ptr_add (ptr_add (get_reg m SP) off) 8 then get_reg m r2
  else if a =? ptr_add (get_reg m SP) off then get_reg m r1
  else load m a.
Proof. reflexivity. Qed.

Lemma get_reg_str rt rn off m r : get_reg (str rt rn off m) r = get_reg m r.
Proof. apply get_reg_store. Qed.

Lemma load_str rt rn off m a :
  load (str rt rn off m) a =
  if a =? ptr_add (get_reg m rn) off then get_reg m rt else load m a.
Proof. reflexivity. Qed.

Lemma get_reg_add_same k rn imm m :
  get_reg (add (X k) rn imm m) (X k) = wrap64 (get_reg m rn + imm).
Proof. apply get_reg_set_reg_same. discriminate. Qed.

Lemma get_reg_add_SP k rn imm m : get_reg (add (X k) rn imm m) SP = get_reg m SP.
Proof. reflexivity. Qed.

Lemma load_add rd rn imm m a : load (add rd rn imm m) a = load m a.
Proof. apply load_set_reg. Qed.

Lemma get_reg_mov_imm_same k imm m : get_reg (mov_imm (X k) imm m) (X k) = imm.
Proof. apply get_reg_set_reg_same. discriminate. Qed.

Lemma get_reg_mov_imm_SP k imm m : get_reg (mov_imm (X k) imm m) SP = get_reg m SP.
Proof. reflexivity. Qed.

Lemma load_mov_imm rd imm m a : load (mov_imm rd imm m) a = load m a.
Proof. apply load_set_reg. Qed.

Lemma get_reg_mov_same k rn m : get_reg (mov (X k) rn m) (X k) = get_reg m rn.
Proof. apply get_reg_set_reg_same. discriminate. Qed.

Lemma get_reg_mov_SP k rn m : get_reg (mov (X k) rn m) SP = get_reg m SP.
Proof. reflexivity. Qed.

Lemma load_mov rd rn m a : load (mov rd rn m) a = load m a.
Proof. apply load_set_reg. Qed.

Create Rewrite HintDb arm64.
#[local] Hint Rewrite
  get_reg_save_pair load_save_pair get_reg_push_pair_SP get_reg_push_pair_X
  load_push_pair get_reg_str load_str get_reg_add_same get_reg_add_SP load_add
  get_reg_mov_imm_same get_reg_mov_imm_SP load_mov_imm
  get_reg_mov_same get_reg_mov_SP load_mov : arm64.

(** The frame as [PUSH_COOP_PINVOKE_FRAME] leaves it: memory, [sp] and
    [$trashReg]. *)
Lemma PUSH_COOP_PINVOKE_FRAME_frame (k : nat) (m : machine) :
  0 <= get_reg m SP < 2 ^ 64 ->
  let frame := ptr_add (get_reg m SP) (- 0x80) in
  let m' := PUSH_COOP_PINVOKE_FRAME (X k) m in
  get_reg m' SP = frame /\
  get_reg m' (X k) = frame /\
  forall a,
    load m' a =
    if a =? ptr_add frame 0x18 then DEFAULT_FRAME_SAVE_FLAGS
    else if a =? ptr_add frame 0x70 then get_reg m SP
    else if a =? ptr_add frame 0x68 then get_reg m (X 28)
    else if a =? ptr_add frame 0x60 then get_reg m (X 27)
    else if a =? ptr_add frame 0x58 then get_reg m (X 26)
    else if a =? ptr_add frame 0x50 then get_reg m (X 25)
    else if a =? ptr_add frame 0x48 then get_reg m (X 24)
    else if a =? ptr_add frame 0x40 then get_reg m (X 23)
    else if a =? ptr_add frame 0x38 then get_reg m (X 22)
    else if a =? ptr_add frame 0x30 then get_reg m (X 21)
    else if a =? ptr_add frame 0x28 then get_reg m (X 20)
    else if a =? ptr_add frame 0x20 then get_reg m (X 19)
    else if a =? ptr_add frame 8 then get_reg m lr
    else if a =? ptr_add frame 0 then get_reg m fp
    else load m a.
Proof.
  intros Hsp frame m'. subst m'. unfold PUSH_COOP_PINVOKE_FRAME. cbv zeta.
  split; [|split; [|intros a]]; autorewrite with arm64; fold frame;
    try reflexivity.
  replace (wrap64 (frame + 128)) with (get_reg m SP)
    by (symmetry; apply (wrap64_ptr_add_back _ 0x80); assumption).
  replace (ptr_add frame 0) with frame by (symmetry; apply ptr_add_idem).
  clearbody frame. rewrite !ptr_add_assoc. reflexivity.
Qed.

Ltac frame_slot Hload :=
  rewrite Hload; rewrite ?ptr_add_eqb by lia; reflexivity.

(** C7. [PUSH_COOP_PINVOKE_FRAME] with a general register as [$trashReg],
    entered with the stack pointer at [sp0]: the frame lies [0x80] bytes
    below [sp0]; it holds [x19]..[x28] as they were at entry in the slots
    from [0x20] on, [sp0] in the slot at [0x70], and in the flags slot at
    [0x18] the mask [DEFAULT_FRAME_SAVE_FLAGS], which is
    [PTFF_SAVE_ALL_PRESERVED + PTFF_SAVE_SP]; [PTFF_SAVE_ALL_PRESERVED] is
    [0x3FF], the union of the ten flags [PTFF_SAVE_X19]..[PTFF_SAVE_X28],
    each a single bit.  [fp] and [lr] are at the start of the frame, and
    [sp] and [$trashReg] hold the frame's address on exit. *)
Theorem PUSH_COOP_PINVOKE_FRAME_spec (k : nat) (m : machine) :
  let sp0 := get_reg m SP in
  0 <= sp0 < 2 ^ 64 ->
  let frame := ptr_add sp0 (- 0x80) in
  let m' := PUSH_COOP_PINVOKE_FRAME (X k) m in
  (forall n, (19 <= n <= 28)%nat ->
     load m' (preserved_slot frame n) = get_reg m (X n)) /\
  load m' (ptr_add frame 0x70) = sp0 /\
  load m' (ptr_add frame 0x18) = DEFAULT_FRAME_SAVE_FLAGS /\
  DEFAULT_FRAME_SAVE_FLAGS = PTFF_SAVE_ALL_PRESERVED + PTFF_SAVE_SP /\
  DEFAULT_FRAME_SAVE_FLAGS = Z.lor PTFF_SAVE_ALL_PRESERVED PTFF_SAVE_SP /\
  PTFF_SAVE_ALL_PRESERVED = 0x3FF /\
  PTFF_SAVE_ALL_PRESERVED =
    List.fold_right Z.lor 0 (List.map PTFF_SAVE_X (List.seq 19 10)) /\
  (forall n, (19 <= n <= 28)%nat -> PTFF_SAVE_X n = 2 ^ (Z.of_nat n - 19)) /\
  load m' (ptr_add frame 0) = get_reg m fp /\
  load m' (ptr_add frame 8) = get_reg m lr /\
  get_reg m' SP = frame /\
  get_reg m' (X k) = frame.
Proof.
  intros sp0 Hsp frame m'.
  destruct (PUSH_COOP_PINVOKE_FRAME_frame k m Hsp) as (Hsp' & Htrash & Hload).
  fold sp0 frame m' in Hsp', Htrash, Hload. clearbody m' frame.
  split; [|split; [|split; [|split; [|split; [|split; [|split; [|split;
    [|split; [|split; [|split]]]]]]]]]];
    try reflexivity; try assumption; try (frame_slot Hload).
  - intros n Hn.
    assert (n = 19 \/ n = 20 \/ n = 21 \/ n = 22 \/ n = 23 \/
            n = 24 \/ n = 25 \/ n = 26 \/ n = 27 \/ n = 28)%nat as Hc by lia.
    unfold preserved_slot.
    repeat (destruct Hc as [->|Hc]; [frame_slot Hload|]).
    subst n. frame_slot Hload.
  - exact PTFF_SAVE_X_one_bit.
Qed.

Lemma PUSH_COOP_PINVOKE_FRAME_spec_witness :
  let m := machine_at 0x8000 (fun _ => 0) in
  let m' := PUSH_COOP_PINVOKE_FRAME (X 9) m in
  0 <= 0x8000 < 2 ^ 64 /\
  get_reg m' SP = 0x7F80 /\ get_reg m' (X 9) = 0x7F80 /\
  load m' 0x7FA0 = 19 /\ load m' 0x7FE8 = 28 /\
  load m' 0x7FF0 = 0x8000 /\ load m' 0x7F98 = 0x7FF.
Proof.
  intros m m'.
  assert (Hsp : 0 <= get_reg m SP < 2 ^ 64) by (cbn; lia).
  pose proof (PUSH_COOP_PINVOKE_FRAME_spec 9 m Hsp)
    as (Hregs & Hsaved & Hflags & _ & _ & _ & _ & _ & _ & _ & Hsp' & Htrash).
  split; [lia|].
  split; [exact Hsp'|]. split; [exact Htrash|].
  split; [apply (Hregs 19%nat); lia|]. split; [apply (Hregs 28%nat); lia|].
  split; [exact Hsaved | exact Hflags].
Defined.

(** ** The heap registry *)

Import HeapRegistry.

Section HeapRegistryFacts.

Variable IGCHeap : Type.

(** The registry is initialized exactly when [g_pGCHeap] is not null. *)
Lemma IsGCHeapInitialized_false (g_pGCHeap : option IGCHeap) :
  IsGCHeapInitialized g_pGCHeap = false <-> g_pGCHeap = None.
Proof. destruct g_pGCHeap; cbn; split; congruence. Qed.

Lemma IsGCHeapInitialized_true (g_pGCHeap : option IGCHeap) :
  IsGCHeapInitialized g_pGCHeap = true <-> exists heap, g_pGCHeap = Some heap.
Proof.
  destruct g_pGCHeap as [heap|]; cbn; split; try congruence.
  - intros _. now exists heap.
  - intros [heap Hh]. discriminate.
Qed.

(** C8. [WaitForGCCompletion] does nothing when the registry is not
    initialized: it makes no call and, whatever the heap implementation,
    leaves its state as it was.  When the registry holds a heap, it makes
    exactly one call, [WaitUntilGCComplete] on that heap with the flag
    it was given, and its effect is the effect of that call. *)
Theorem WaitForGCCompletion_spec (g_pGCHeap : option IGCHeap) bConsiderGCStart :
  (IsGCHeapInitialized g_pGCHeap = false ->
     WaitForGCCompletion g_pGCHeap bConsiderGCStart = Ret tt /\
     forall (S : Type) (F : Type -> Type)
            (impl : IGCHeapE IGCHeap ~> Monads.stateT S (itree F)) (s : S),
       interp_state impl (WaitForGCCompletion g_pGCHeap bConsiderGCStart) s
       ≈ Ret (s, tt)) /\
  (forall heap, g_pGCHeap = Some heap ->
     WaitForGCCompletion g_pGCHeap bConsiderGCStart =
       ITree.bind (ITree.trigger (WaitUntilGCComplete heap bConsiderGCStart))
                  (fun _ => Ret tt) /\
     forall (S : Type) (F : Type -> Type)
            (impl : IGCHeapE IGCHeap ~> Monads.stateT S (itree F)) (s : S),
       interp_state impl (WaitForGCCompletion g_pGCHeap bConsiderGCStart) s
       ≈ ITree.bind (impl _ (WaitUntilGCComplete heap bConsiderGCStart) s)
                    (fun sr => Ret (fst sr, tt))).
Proof.
  split.
  - intros Hinit. apply IsGCHeapInitialized_false in Hinit. subst g_pGCHeap.
    split; [reflexivity|].
    intros S F impl s. cbn. rewrite interp_state_ret. reflexivity.
  - intros heap ->. split; [reflexivity|].
    intros S F impl s. cbn.
    rewrite interp_state_bind, interp_state_trigger.
    apply eutt_eq_bind. intros [s' r]. cbn.
    rewrite interp_state_ret. reflexivity.
Qed.

(** C10. [IsGCInProgress] answers [false] when the registry is not
    initialized, and makes no call to do so: the heap is not consulted
    and its state is left as it was.  (With a heap in the registry the
    answer is that of [IsGCInProgressHelper].) *)
Theorem IsGCInProgress_uninitialized (g_pGCHeap : option IGCHeap) bConsiderGCStart :
  (IsGCHeapInitialized g_pGCHeap = false ->
     IsGCInProgress g_pGCHeap bConsiderGCStart = Ret false /\
     forall (S : Type) (F : Type -> Type)
            (impl : IGCHeapE IGCHeap ~> Monads.stateT S (itree F)) (s : S),
       interp_state impl (IsGCInProgress g_pGCHeap bConsiderGCStart) s
       ≈ Ret (s, false)) /\
  (forall heap, g_pGCHeap = Some heap ->
     IsGCInProgress g_pGCHeap bConsiderGCStart =
       ITree.trigger (IsGCInProgressHelper heap bConsiderGCStart)).
Proof.
  split.
  - intros Hinit. apply IsGCHeapInitialized_false in Hinit. subst g_pGCHeap.
    split; [reflexivity|].
    intros S F impl s. cbn. rewrite interp_state_ret. reflexivity.
  - intros heap ->. reflexivity.
Qed.

End HeapRegistryFacts.

Lemma WaitForGCCompletion_spec_witness :
  IsGCHeapInitialized (@None unit) = false /\
  WaitForGCCompletion (@None unit) false = Ret tt /\
  interp_state counting_heap (WaitForGCCompletion (@None unit) false) 3%nat
    ≈ Ret (3%nat, tt) /\
  interp_state counting_heap (WaitForGCCompletion (Some tt) false) 3%nat
    ≈ Ret (0%nat, tt).
Proof.
  pose proof (WaitForGCCompletion_spec unit None false) as [Hnone _].
  pose proof (WaitForGCCompletion_spec unit (Some tt) false) as [_ Hsome].
  destruct (Hnone eq_refl) as [Heq Hrun].
  destruct (Hsome tt eq_refl) as [_ Hwait].
  split; [reflexivity|]. split; [exact Heq|]. split; [apply Hrun|].
  rewrite Hwait. cbn. rewrite bind_ret_l. reflexivity.
Defined.

Lemma IsGCInProgress_uninitialized_witness :
  IsGCHeapInitialized (@None unit) = false /\
  IsGCInProgress (@None unit) true = Ret false /\
  interp_state counting_heap (IsGCInProgress (@None unit) true) 3%nat
    ≈ Ret (3%nat, false).
Proof.
  pose proof (IsGCInProgress_uninitialized unit None true) as [Hnone _].
  destruct (Hnone eq_refl) as [Heq Hrun].
  split; [reflexivity|]. split; [exact Heq | apply Hrun].
Defined.

(** * Further properties *)

(** ** The dirty-page table: how the two markers compose *)

Section WriteWatchComposition.

Variable shift : Z.

(** What [memset] leaves in each entry, whatever its arguments. *)
Lemma SetDirtyRegion_entry_cases address length t j :
  SoftwareWriteWatchSetDirtyRegion shift address length t j = Byte.xff \/
  SoftwareWriteWatchSetDirtyRegion shift address length t j = t j.
Proof.
  unfold SoftwareWriteWatchSetDirtyRegion, memset.
  match goal with |- context [if ?c then _ else _] => destruct c end;
    [left; apply to_uchar_all_ones | right; reflexivity].
Qed.

(** X1. Neither marker ever cleans a page: an entry that is not zero is
    kept as it is by [SoftwareWriteWatchSetDirty], and is kept or becomes
    [0xFF] under [SoftwareWriteWatchSetDirtyRegion]; either way it is not
    zero afterwards.  This holds for every address, size and length. *)
Theorem markers_never_clean address size t j :
  t j <> Byte.x00 ->
  SoftwareWriteWatchSetDirty shift address size t j = t j /\
  (SoftwareWriteWatchSetDirtyRegion shift address size t j = t j \/
   SoftwareWriteWatchSetDirtyRegion shift address size t j = Byte.xff) /\
  SoftwareWriteWatchSetDirty shift address size t j <> Byte.x00 /\
  SoftwareWriteWatchSetDirtyRegion shift address size t j <> Byte.x00.
Proof.
  intros Hj.
  assert (Hs : SoftwareWriteWatchSetDirty shift address size t j = t j).
  { rewrite SetDirty_entry.
    destruct (Byte.eqb (t j) Byte.x00) eqn:E;
      [apply Byte.byte_dec_bl in E; contradiction|].
    now rewrite andb_false_r. }
  split; [exact Hs|].
  destruct (SetDirtyRegion_entry_cases address size t j) as [Hr|Hr].
  - split; [now right|]. split; [now rewrite Hs|]. rewrite Hr. discriminate.
  - split; [now left|]. split; [now rewrite Hs | now rewrite Hr].
Qed.

(** X2. Two [SoftwareWriteWatchSetDirty] calls commute: marking two
    addresses in either order leaves the same entries. *)
Theorem SetDirty_commute address1 size1 address2 size2 t :
  forall j,
    SoftwareWriteWatchSetDirty shift address1 size1
      (SoftwareWriteWatchSetDirty shift address2 size2 t) j =
    SoftwareWriteWatchSetDirty shift address2 size2
      (SoftwareWriteWatchSetDirty shift address1 size1 t) j.
Proof.
  intros j. rewrite !SetDirty_entry.
  destruct (j =? Z.shiftr address1 shift), (j =? Z.shiftr address2 shift),
           (Byte.eqb (t j) Byte.x00) eqn:E; cbn [andb]; rewrite ?E; reflexivity.
Qed.

(** X3. [SoftwareWriteWatchSetDirtyRegion] is idempotent, and two of its
    calls commute, for non-null addresses and ranges that are not empty and
    do not wrap around the address space. *)
Theorem SetDirtyRegion_idempotent_commute address1 length1 address2 length2 t :
  0 < address1 -> 1 <= length1 -> address1 + length1 <= 2 ^ 64 ->
  0 < address2 -> 1 <= length2 -> address2 + length2 <= 2 ^ 64 ->
  forall j,
    SoftwareWriteWatchSetDirtyRegion shift address1 length1
      (SoftwareWriteWatchSetDirtyRegion shift address1 length1 t) j =
      SoftwareWriteWatchSetDirtyRegion shift address1 length1 t j /\
    SoftwareWriteWatchSetDirtyRegion shift address1 length1
      (SoftwareWriteWatchSetDirtyRegion shift address2 length2 t) j =
    SoftwareWriteWatchSetDirtyRegion shift address2 length2
      (SoftwareWriteWatchSetDirtyRegion shift address1 length1 t) j.
Proof.
  intros _ _ _ _ _ _ j. unfold SoftwareWriteWatchSetDirtyRegion, memset. split.
  - match goal with |- context [if ?c then _ else _] => destruct c end; reflexivity.
  - repeat match goal with |- context [if ?c then _ else _] => destruct c end;
      reflexivity.
Qed.

Hypothesis shift_nonneg : 0 <= shift.

(** X4. After a range has been marked, [SoftwareWriteWatchSetDirty] on any
    address of the range changes nothing. *)
Theorem SetDirty_after_SetDirtyRegion address length address' size t :
  0 < address -> 1 <= length -> address + length <= 2 ^ 64 ->
  address <= address' < address + length ->
  SoftwareWriteWatchSetDirty shift address' size
    (SoftwareWriteWatchSetDirtyRegion shift address length t) =
  SoftwareWriteWatchSetDirtyRegion shift address length t.
Proof.
  intros Haddr Hlen Hfit Hin.
  unfold SoftwareWriteWatchSetDirty.
  assert (Hp : page_intersects shift (Z.shiftr address' shift) address length)
    by (exists address'; split; [assumption | reflexivity]).
  apply (page_intersects_iff shift shift_nonneg) in Hp; [|assumption].
  rewrite (SetDirtyRegion_entry shift shift_nonneg) by assumption.
  destruct (Z.leb_spec (Z.shiftr address shift) (Z.shiftr address' shift)),
           (Z.leb_spec (Z.shiftr address' shift)
                       (Z.shiftr (address + length - 1) shift));
    cbn [andb]; try lia.
  reflexivity.
Qed.

Lemma shiftr_succ_le a : 0 <= a -> Z.shiftr (a + 1) shift <= Z.shiftr a shift + 1.
Proof.
  intros Ha. rewrite !Z.shiftr_div_pow2 by assumption.
  assert (HP : 0 < 2 ^ shift) by now apply Z.pow_pos_nonneg.
  apply Z.div_le_upper_bound; [assumption|].
  pose proof (Z.mul_succ_div_gt a (2 ^ shift) HP). nia.
Qed.

(** X5. Marking a range in two adjacent pieces is marking it whole. *)
Theorem SetDirtyRegion_split address length1 length2 t :
  0 < address -> 1 <= length1 -> 1 <= length2 ->
  address + length1 + length2 <= 2 ^ 64 ->
  forall j,
    SoftwareWriteWatchSetDirtyRegion shift (address + length1) length2
      (SoftwareWriteWatchSetDirtyRegion shift address length1 t) j =
    SoftwareWriteWatchSetDirtyRegion shift address (length1 + length2) t j.
Proof.
  intros Haddr Hl1 Hl2 Hfit j.
  rewrite !(SetDirtyRegion_entry shift shift_nonneg) by lia.
  assert (HP : 0 < 2 ^ shift) by now apply Z.pow_pos_nonneg.
  replace (address + length1 + length2 - 1) with (address + (length1 + length2) - 1)
    by lia.
  assert (H1 : Z.shiftr address shift <= Z.shiftr (address + length1 - 1) shift)
    by (rewrite !Z.shiftr_div_pow2 by assumption; apply Z.div_le_mono; lia).
  assert (H2 : Z.shiftr (address + length1 - 1) shift <= Z.shiftr (address + length1) shift)
    by (rewrite !Z.shiftr_div_pow2 by assumption; apply Z.div_le_mono; lia).
  assert (H3 : Z.shiftr (address + length1) shift
               <= Z.shiftr (address + length1 - 1) shift + 1).
  { pose proof (shiftr_succ_le (address + length1 - 1) ltac:(lia)) as H.
    now replace (address + length1 - 1 + 1) with (address + length1) in H by lia. }
  assert (H4 : Z.shiftr (address + length1) shift
               <= Z.shiftr (address + (length1 + length2) - 1) shift)
    by (rewrite !Z.shiftr_div_pow2 by assumption; apply Z.div_le_mono; lia).
  set (b1 := Z.shiftr address shift) in *.
  set (e1 := Z.shiftr (address + length1 - 1) shift) in *.
  set (b2 := Z.shiftr (address + length1) shift) in *.
  set (e2 := Z.shiftr (address + (length1 + length2) - 1) shift) in *.
  clearbody b1 e1 b2 e2.
  destruct (Z.leb_spec b2 j), (Z.leb_spec j e2), (Z.leb_spec b1 j), (Z.leb_spec j e1);
    cbn [andb]; try reflexivity; lia.
Qed.

(** X6. The empty range.  With length zero and a non-null address, the
    table is left as it is when the address is the first of its page;
    otherwise the entry of the address's page is set to [0xFF] (and no
    other). *)
Theorem SetDirtyRegion_empty_range address t :
  0 < address < 2 ^ 64 ->
  forall j,
    SoftwareWriteWatchSetDirtyRegion shift address 0 t j =
    if address mod 2 ^ shift =? 0 then t j
    else if j =? Z.shiftr address shift then Byte.xff else t j.
Proof.
  intros Haddr j.
  assert (HP : 0 < 2 ^ shift) by now apply Z.pow_pos_nonneg.
  unfold SoftwareWriteWatchSetDirtyRegion, memset, wrap64, modulus.
  rewrite to_uchar_all_ones. rewrite Z.add_0_r.
  rewrite (Z.mod_small (address - 1)) by lia.
  rewrite !Z.shiftr_div_pow2 by assumption.
  pose proof (Z.div_mod address (2 ^ shift) ltac:(lia)) as Hdm.
  pose proof (Z.mod_pos_bound address (2 ^ shift) HP) as Hmb.
  destruct (Z.eqb_spec (address mod 2 ^ shift) 0) as [Hal|Hal].
  - assert (Hq : (address - 1) / 2 ^ shift = address / 2 ^ shift - 1).
    { symmetry. apply (Z.div_unique _ _ _ (2 ^ shift - 1)); lia. }
    rewrite Hq.
    replace (address / 2 ^ shift - 1 - address / 2 ^ shift + 1) with 0 by lia.
    rewrite Z.mod_0_l by lia.
    destruct (Z.leb_spec (address / 2 ^ shift) j),
             (Z.ltb_spec j (address / 2 ^ shift + 0)); cbn [andb];
      try reflexivity; lia.
  - assert (Hq : (address - 1) / 2 ^ shift = address / 2 ^ shift).
    { symmetry. apply (Z.div_unique _ _ _ (address mod 2 ^ shift - 1)); lia. }
    rewrite Hq.
    replace (address / 2 ^ shift - address / 2 ^ shift + 1) with 1 by lia.
    rewrite Z.mod_small by lia.
    destruct (Z.leb_spec (address / 2 ^ shift) j),
             (Z.ltb_spec j (address / 2 ^ shift + 1)),
             (Z.eqb_spec j (address / 2 ^ shift)); cbn [andb];
      try reflexivity; lia.
Qed.

(** X7. [SoftwareWriteWatchSetDirty] and the condition of its last
    [assert].  When the first and the last byte of the write lie in one
    page, every page the write touches is dirty afterwards.  When they do
    not, the page of the last byte is left as it was: if it was clean, it
    stays clean although it has been written to. *)
Theorem SetDirty_covers_write address write_size t :
  1 <= write_size ->
  let t' := SoftwareWriteWatchSetDirty shift address write_size t in
  let first := Z.shiftr address shift in
  let last := Z.shiftr (address + (write_size - 1)) shift in
  (first = last ->
   forall p, page_intersects shift p address write_size -> t' p <> Byte.x00) /\
  (first <> last ->
   page_intersects shift last address write_size /\ t' last = t last).
Proof.
  intros Hsize t' first last. subst t' first last.
  replace (address + (write_size - 1)) with (address + write_size - 1) by lia.
  split.
  - intros Hone p Hp.
    apply (page_intersects_iff shift shift_nonneg) in Hp; [|assumption].
    assert (p = Z.shiftr address shift) as -> by lia.
    rewrite SetDirty_entry, Z.eqb_refl. cbn [andb].
    destruct (Byte.eqb (t (Z.shiftr address shift)) Byte.x00) eqn:E;
      [discriminate|].
    now apply Byte.eqb_false.
  - intros Hcross. split.
    + exists (address + write_size - 1). split; [lia | reflexivity].
    + rewrite SetDirty_entry.
      destruct (Z.eqb_spec (Z.shiftr (address + write_size - 1) shift)
                           (Z.shiftr address shift)); [congruence | reflexivity].
Qed.

End WriteWatchComposition.

Lemma markers_never_clean_witness :
  let t := table_store clean_table 5 Byte.x01 in
  SoftwareWriteWatchSetDirty 12 0x5008 8 t 5 = Byte.x01 /\
  SoftwareWriteWatchSetDirtyRegion 12 0x5008 8 t 5 <> Byte.x00.
Proof.
  intros t.
  assert (H5 : t 5 <> Byte.x00) by discriminate.
  destruct (markers_never_clean 12 0x5008 8 t 5 H5) as (Hs & _ & _ & Hr).
  split; [exact Hs | exact Hr].
Defined.

Lemma SetDirtyRegion_idempotent_commute_witness :
  let t := table_store clean_table 6 Byte.x01 in
  let once := SoftwareWriteWatchSetDirtyRegion 12 0x5000 0x1800 t in
  let twice := SoftwareWriteWatchSetDirtyRegion 12 0x5000 0x1800 once in
  let one_two :=
    SoftwareWriteWatchSetDirtyRegion 12 0x5000 0x1800
      (SoftwareWriteWatchSetDirtyRegion 12 0x6800 0x1000 t) in
  let two_one :=
    SoftwareWriteWatchSetDirtyRegion 12 0x6800 0x1000 once in
  twice 5 = once 5 /\ twice 6 = once 6 /\ twice 7 = once 7 /\
  one_two 5 = two_one 5 /\ one_two 6 = two_one 6 /\ one_two 7 = two_one 7 /\
  one_two 8 = two_one 8.
Proof.
  intros t once twice one_two two_one.
  assert (H : forall j, twice j = once j /\ one_two j = two_one j)
    by (apply (SetDirtyRegion_idempotent_commute 12); lia).
  repeat split; apply H.
Defined.

Lemma SetDirty_after_SetDirtyRegion_witness :
  let t := SoftwareWriteWatchSetDirtyRegion 12 0x5000 0x3000 clean_table in
  SoftwareWriteWatchSetDirty 12 0x6ff8 8 t = t.
Proof.
  intros t.
  apply (SetDirty_after_SetDirtyRegion 12); lia.
Defined.

Lemma SetDirtyRegion_split_witness :
  let pieces :=
    SoftwareWriteWatchSetDirtyRegion 12 (0x5800 + 0x1000) 0x2000
      (SoftwareWriteWatchSetDirtyRegion 12 0x5800 0x1000 clean_table) in
  let whole :=
    SoftwareWriteWatchSetDirtyRegion 12 0x5800 (0x1000 + 0x2000) clean_table in
  pieces 4 = whole 4 /\ pieces 5 = whole 5 /\ pieces 6 = whole 6 /\
  pieces 8 = whole 8 /\ pieces 9 = whole 9.
Proof.
  intros pieces whole.
  assert (H : forall j, pieces j = whole j)
    by (apply (SetDirtyRegion_split 12); lia).
  repeat split; apply H.
Defined.

Lemma SetDirtyRegion_empty_range_witness :
  SoftwareWriteWatchSetDirtyRegion 12 0x5000 0 clean_table 5 = Byte.x00 /\
  SoftwareWriteWatchSetDirtyRegion 12 0x5001 0 clean_table 5 = Byte.xff /\
  SoftwareWriteWatchSetDirtyRegion 12 0x5001 0 clean_table 4 = Byte.x00.
Proof.
  assert (H12 : 0 <= 12) by lia.
  assert (Ha : 0 < 0x5000 < 2 ^ 64) by (split; [lia | vm_compute; reflexivity]).
  assert (Hb : 0 < 0x5001 < 2 ^ 64) by (split; [lia | vm_compute; reflexivity]).
  split; [|split].
  - rewrite (SetDirtyRegion_empty_range 12 H12 0x5000 clean_table Ha 5). reflexivity.
  - rewrite (SetDirtyRegion_empty_range 12 H12 0x5001 clean_table Hb 5). reflexivity.
  - rewrite (SetDirtyRegion_empty_range 12 H12 0x5001 clean_table Hb 4). reflexivity.
Defined.

Lemma SetDirty_covers_write_witness :
  SoftwareWriteWatchSetDirty 12 0x5ff8 8 clean_table 5 <> Byte.x00 /\
  SoftwareWriteWatchSetDirty 12 0x5ffc 8 clean_table 6 = Byte.x00.
Proof.
  assert (H12 : 0 <= 12) by lia.
  assert (H8 : 1 <= 8) by lia.
  destruct (SetDirty_covers_write 12 H12 0x5ff8 8 clean_table H8) as [Hone _].
  destruct (SetDirty_covers_write 12 H12 0x5ffc 8 clean_table H8) as [_ Hcross].
  split.
  - apply (Hone eq_refl 5). exists 0x5ff8. split; [lia | reflexivity].
  - destruct Hcross as [_ Hlast]; [discriminate|]. exact Hlast.
Defined.

(** ** The allocation context: budget and edge cases *)

Lemma ptr_add_small p n : 0 <= p + n < 2 ^ 64 -> ptr_add p n = p + n.
Proof. intros H. unfold ptr_add, wrap64, modulus. now apply Z.mod_small. Qed.

Lemma ptr_add_wrapped p n :
  2 ^ 64 <= p + n < 2 * 2 ^ 64 -> ptr_add p n = p + n - 2 ^ 64.
Proof.
  intros H. unfold ptr_add, wrap64, modulus.
  symmetry. apply (Z.mod_unique _ _ 1); lia.
Qed.

Lemma ptr_add_nonneg p n : 0 <= ptr_add p n.
Proof. unfold ptr_add, wrap64, modulus. apply Z.mod_pos_bound. lia. Qed.

Section AllocContextBudget.

Variable CLRRandom : Type.
Variable NextDouble : CLRRandom -> double * CLRRandom.
Variable log : double -> double.
Variable int_of_unrepresentable : double -> Z.

Local Abbreviation ComputeGeometricRandom :=
  (ComputeGeometricRandom CLRRandom NextDouble log int_of_unrepresentable).
Local Abbreviation UpdateCombinedLimit :=
  (UpdateCombinedLimit CLRRandom NextDouble log int_of_unrepresentable).

(** X8. The sampling budget.  For a window with
    [0 <= alloc_ptr <= alloc_limit < 2^64] and a threshold that is not
    negative: when [alloc_ptr + threshold] stays within the address space,
    [combined_limit] lies between [alloc_ptr] and [alloc_limit] and the
    budget [combined_limit - alloc_ptr] is the smaller of the threshold and
    the room left in the window; when the sum wraps around, [combined_limit]
    falls below [alloc_ptr]. *)
Theorem UpdateCombinedLimit_budget pRandom this :
  let ptr := alloc_ptr (gc_alloc_context this) in
  let limit := alloc_limit (gc_alloc_context this) in
  let threshold := fst (ComputeGeometricRandom pRandom) in
  let this' := fst (UpdateCombinedLimit true pRandom this) in
  0 <= ptr <= limit -> limit < 2 ^ 64 -> 0 <= threshold < 2 ^ 64 ->
  (ptr + threshold < 2 ^ 64 ->
     ptr <= combined_limit this' <= limit /\
     combined_limit this' - ptr = Z.min threshold (limit - ptr)) /\
  (2 ^ 64 <= ptr + threshold ->
     combined_limit this' = ptr + threshold - 2 ^ 64 /\
     combined_limit this' < ptr).
Proof.
  intros ptr limit threshold this' Hwin Hlim Hth.
  subst this'. rewrite UpdateCombinedLimit_limit. fold ptr limit threshold.
  rewrite Min_spec. split.
  - intros Hfit. rewrite ptr_add_small by lia. lia.
  - intros Hwrap. rewrite ptr_add_wrapped by lia. lia.
Qed.

(** X9. A context that has just been initialised keeps
    [combined_limit = alloc_limit = nullptr] through
    [UpdateCombinedLimit], with sampling enabled or not and whatever the
    generator draws: a null window never holds a sampling limit. *)
Theorem UpdateCombinedLimit_after_init samplingEnabled pRandom this :
  let this' := fst (UpdateCombinedLimit samplingEnabled pRandom (init this)) in
  combined_limit this' = 0 /\ alloc_limit (gc_alloc_context this') = 0 /\
  alloc_ptr (gc_alloc_context this') = 0.
Proof.
  intros this'. subst this'.
  rewrite UpdateCombinedLimit_window, UpdateCombinedLimit_limit.
  split; [|split; reflexivity].
  destruct samplingEnabled; [|reflexivity].
  cbn [init gc_alloc_context gc_alloc_context_init alloc_ptr alloc_limit].
  rewrite Min_spec. pose proof (ptr_add_nonneg 0 (fst (ComputeGeometricRandom pRandom))).
  lia.
Qed.

End AllocContextBudget.

Lemma UpdateCombinedLimit_budget_witness :
  let this := {| combined_limit := 0;
                 gc_alloc_context := {| alloc_ptr := 0x1000; alloc_limit := 0x2000 |} |} in
  let this' := fst (UpdateCombinedLimit (list double) replay_NextDouble tangent_log
                      indefinite_int true (PrimFloat.zero :: nil) this) in
  0x1000 <= combined_limit this' <= 0x2000 /\ combined_limit this' - 0x1000 = 0.
Proof.
  intros this this'.
  assert (Hth : fst (ComputeGeometricRandom (list double) replay_NextDouble tangent_log
                       indefinite_int (PrimFloat.zero :: nil)) = 0)
    by (vm_compute; reflexivity).
  pose proof (UpdateCombinedLimit_budget (list double) replay_NextDouble tangent_log
                indefinite_int (PrimFloat.zero :: nil) this) as H.
  cbn zeta in H. rewrite Hth in H.
  destruct H as [Hfit _].
  - cbn. lia.
  - cbn. vm_compute. reflexivity.
  - split; [lia | vm_compute; reflexivity].
  - destruct Hfit as [Hb He]; [cbn; vm_compute; reflexivity|].
    split; [exact Hb | exact He].
Defined.

(** ** The ARM64 macros: idempotence, frame conditions and round trip *)

Lemma get_reg_set_reg m r v r' :
  r <> XZR -> get_reg (set_reg m r v) r' = if reg_eqb r' r then v else get_reg m r'.
Proof.
  intros Hr. destruct (reg_eqb_spec r' r) as [->|Hne].
  - now apply get_reg_set_reg_same.
  - now apply get_reg_set_reg_other.
Qed.

Section UnhijackMore.

Variable OFFSETOF__Thread__m_pvHijackedReturnAddress : Z.
Variable OFFSETOF__Thread__m_ppvHijackedReturnAddressLocation : Z.

Local Abbreviation off_ra := OFFSETOF__Thread__m_pvHijackedReturnAddress.
Local Abbreviation off_loc := OFFSETOF__Thread__m_ppvHijackedReturnAddressLocation.
Local Abbreviation UNHIJACK := (INLINE_THREAD_UNHIJACK off_ra off_loc).

(** After the macro the thread register is as before and the saved return
    address of the record is null, record or no record. *)
Lemma UNHIJACK_clears threadReg trashReg1 trashReg2 m :
  trashReg1 <> XZR -> trashReg2 <> XZR ->
  trashReg1 <> threadReg -> trashReg2 <> threadReg -> trashReg1 <> trashReg2 ->
  let m' := UNHIJACK threadReg trashReg1 trashReg2 m in
  get_reg m' threadReg = get_reg m threadReg /\
  hijacked_return_address off_ra m' (get_reg m threadReg) = 0.
Proof.
  intros H1 H2 H1t H2t H12 m'. subst m'.
  destruct (Z.eq_dec (hijacked_return_address off_ra m (get_reg m threadReg)) 0)
    as [Hra|Hra].
  - rewrite UNHIJACK_no_record by assumption.
    rewrite get_reg_set_reg_other by congruence. split; [reflexivity|].
    unfold hijacked_return_address in *. now rewrite load_set_reg.
  - rewrite UNHIJACK_record by assumption.
    rewrite !get_reg_store, !get_reg_set_reg_other by congruence.
    split; [reflexivity|]. apply load_store_same.
Qed.

(** X12. [INLINE_THREAD_UNHIJACK] is idempotent on memory: used a second
    time in a row, with the same three distinct registers, it takes the
    branch of the thread without a record and leaves memory as the first
    use left it. *)
Theorem INLINE_THREAD_UNHIJACK_idempotent threadReg trashReg1 trashReg2 m :
  trashReg1 <> XZR -> trashReg2 <> XZR ->
  trashReg1 <> threadReg -> trashReg2 <> threadReg -> trashReg1 <> trashReg2 ->
  let m' := UNHIJACK threadReg trashReg1 trashReg2 m in
  UNHIJACK threadReg trashReg1 trashReg2 m' = set_reg m' trashReg1 0 /\
  mem (UNHIJACK threadReg trashReg1 trashReg2 m') = mem m'.
Proof.
  intros H1 H2 H1t H2t H12 m'.
  destruct (UNHIJACK_clears threadReg trashReg1 trashReg2 m H1 H2 H1t H2t H12)
    as [Hthread Hnull].
  fold m' in Hthread, Hnull.
  assert (Hagain : UNHIJACK threadReg trashReg1 trashReg2 m' = set_reg m' trashReg1 0).
  { apply UNHIJACK_no_record; [assumption|]. now rewrite Hthread. }
  split; [exact Hagain|]. rewrite Hagain. apply mem_set_reg.
Qed.

(** X13. [INLINE_THREAD_UNHIJACK] changes no register but its two scratch
    registers, and never the second one when the thread has no record. *)
Theorem INLINE_THREAD_UNHIJACK_registers threadReg trashReg1 trashReg2 m :
  trashReg1 <> XZR -> trashReg2 <> XZR ->
  trashReg1 <> threadReg -> trashReg2 <> threadReg -> trashReg1 <> trashReg2 ->
  let m' := UNHIJACK threadReg trashReg1 trashReg2 m in
  (forall r, r <> trashReg1 -> r <> trashReg2 -> get_reg m' r = get_reg m r) /\
  (hijacked_return_address off_ra m (get_reg m threadReg) = 0 ->
   get_reg m' trashReg2 = get_reg m trashReg2).
Proof.
  intros H1 H2 H1t H2t H12 m'. subst m'. split.
  - intros r Hr1 Hr2.
    destruct (Z.eq_dec (hijacked_return_address off_ra m (get_reg m threadReg)) 0)
      as [Hra|Hra].
    + rewrite UNHIJACK_no_record by assumption.
      now apply get_reg_set_reg_other.
    + rewrite UNHIJACK_record by assumption.
      rewrite !get_reg_store. now rewrite !get_reg_set_reg_other.
  - intros Hra. rewrite UNHIJACK_no_record by assumption.
    apply get_reg_set_reg_other. congruence.
Qed.

End UnhijackMore.

Lemma INLINE_THREAD_UNHIJACK_idempotent_witness :
  let m := {| regs := fun r => match r with X 2 => 0x1000 | _ => 0 end;
              mem := fun a => if a =? 0x1010 then 0xAAAA
                              else if a =? 0x1018 then 0x7000
                              else if a =? 0x7000 then 0xBEEF else 0 |} in
  let m' := INLINE_THREAD_UNHIJACK 0x10 0x18 (X 2) (X 3) (X 4) m in
  mem (INLINE_THREAD_UNHIJACK 0x10 0x18 (X 2) (X 3) (X 4) m') = mem m'.
Proof.
  intros m m'.
  apply (INLINE_THREAD_UNHIJACK_idempotent 0x10 0x18 (X 2) (X 3) (X 4) m);
    discriminate.
Defined.

Lemma INLINE_THREAD_UNHIJACK_registers_witness :
  let m := {| regs := fun r => match r with X 2 => 0x1000 | X 7 => 77 | _ => 0 end;
              mem := fun a => if a =? 0x1010 then 0xAAAA
                              else if a =? 0x1018 then 0x7000 else 0 |} in
  get_reg (INLINE_THREAD_UNHIJACK 0x10 0x18 (X 2) (X 3) (X 4) m) (X 7) = 77.
Proof.
  intros m.
  assert (H : forall r, r <> X 3 -> r <> X 4 ->
            get_reg (INLINE_THREAD_UNHIJACK 0x10 0x18 (X 2) (X 3) (X 4) m) r = get_reg m r).
  { apply (INLINE_THREAD_UNHIJACK_registers 0x10 0x18 (X 2) (X 3) (X 4) m);
      discriminate. }
  apply (H (X 7)); discriminate.
Defined.

(** *** What the frame builder leaves alone *)

Lemma get_reg_push_pair_other r1 r2 off m r :
  r <> SP -> get_reg (PROLOG_SAVE_REG_PAIR r1 r2 off true m) r = get_reg m r.
Proof.
  intros Hr. unfold PROLOG_SAVE_REG_PAIR, stp_pre.
  rewrite get_reg_set_reg_other by assumption. now rewrite !get_reg_store.
Qed.

Lemma get_reg_add_other rd rn imm m r :
  r <> rd -> get_reg (add rd rn imm m) r = get_reg m r.
Proof. intros Hr. now apply get_reg_set_reg_other. Qed.

Lemma get_reg_mov_imm_other rd imm m r :
  r <> rd -> get_reg (mov_imm rd imm m) r = get_reg m r.
Proof. intros Hr. now apply get_reg_set_reg_other. Qed.

Lemma get_reg_mov_other rd rn m r :
  r <> rd -> get_reg (mov rd rn m) r = get_reg m r.
Proof. intros Hr. now apply get_reg_set_reg_other. Qed.

Lemma PUSH_COOP_PINVOKE_FRAME_other_registers (k : nat) (m : machine) r :
  r <> SP -> r <> X k -> get_reg (PUSH_COOP_PINVOKE_FRAME (X k) m) r = get_reg m r.
Proof.
  intros Hsp Hk. unfold PUSH_COOP_PINVOKE_FRAME. cbv zeta.
  rewrite get_reg_mov_other, get_reg_str, get_reg_mov_imm_other, get_reg_str,
    get_reg_add_other by assumption.
  rewrite !get_reg_save_pair. now apply get_reg_push_pair_other.
Qed.

(** X14. [PUSH_COOP_PINVOKE_FRAME] stores to fourteen doublewords of its
    frame and nowhere else: the slot at [0x10], reserved for the
    [Thread*], the slot at [0x78] and all memory outside the frame are as
    they were.  The registers [x0]..[x28] and [lr], [$trashReg] apart, are
    as they were; nothing is said of [fp], which the prolog macro of the
    operating system may set up. *)
Theorem PUSH_COOP_PINVOKE_FRAME_leaves_alone (k : nat) (m : machine) :
  let sp0 := get_reg m SP in
  0 <= sp0 < 2 ^ 64 ->
  let frame := ptr_add sp0 (- 0x80) in
  let m' := PUSH_COOP_PINVOKE_FRAME (X k) m in
  (forall a, (forall o, List.In o frame_offsets_written -> a <> ptr_add frame o) ->
             load m' a = load m a) /\
  load m' (ptr_add frame 0x10) = load m (ptr_add frame 0x10) /\
  load m' (ptr_add frame 0x78) = load m (ptr_add frame 0x78) /\
  (forall r, r <> SP -> r <> fp -> r <> X k -> get_reg m' r = get_reg m r).
Proof.
  intros sp0 Hsp frame m'.
  destruct (PUSH_COOP_PINVOKE_FRAME_frame k m Hsp) as (_ & _ & Hload).
  fold sp0 frame m' in Hload.
  split; [|split; [|split]].
  - intros a Ha. rewrite Hload.
    repeat match goal with
    | |- context [a =? ptr_add frame ?o] =>
        destruct (Z.eqb_spec a (ptr_add frame o)) as [He|_];
        [exfalso; apply (Ha o); [cbn; tauto | exact He]|]
    end.
    reflexivity.
  - clearbody frame m'. rewrite Hload. rewrite !ptr_add_eqb by lia. reflexivity.
  - clearbody frame m'. rewrite Hload. rewrite !ptr_add_eqb by lia. reflexivity.
  - intros r Hr _ Hk. now apply PUSH_COOP_PINVOKE_FRAME_other_registers.
Qed.

Lemma PUSH_COOP_PINVOKE_FRAME_leaves_alone_witness :
  let m := machine_at 0x8000 (fun a => a) in
  let m' := PUSH_COOP_PINVOKE_FRAME (X 9) m in
  load m' 0x7F90 = 0x7F90 /\ load m' 0x7FF8 = 0x7FF8 /\ load m' 0x8000 = 0x8000 /\
  get_reg m' (X 19) = 19.
Proof.
  intros m m'.
  assert (Hsp : 0 <= get_reg m SP < 2 ^ 64) by (cbn; lia).
  destruct (PUSH_COOP_PINVOKE_FRAME_leaves_alone 9 m Hsp) as (Hout & H10 & H78 & Hregs).
  split; [exact H10|]. split; [exact H78|]. split.
  - apply (Hout 0x8000). intros o Ho.
    cbn in Ho. repeat (destruct Ho as [<-|Ho]; [vm_compute; discriminate|]).
    contradiction.
  - apply (Hregs (X 19)); discriminate.
Defined.

(** *** Pushing and popping the frame *)

Lemma load_restore_pair r1 r2 off writeback m a :
  load (EPILOG_RESTORE_REG_PAIR r1 r2 off writeback m) a = load m a.
Proof.
  unfold EPILOG_RESTORE_REG_PAIR, ldp, ldp_post.
  destruct writeback; now rewrite !load_set_reg.
Qed.

Lemma get_reg_restore_pair a b off m r :
  get_reg (EPILOG_RESTORE_REG_PAIR (X a) (X b) off false m) r =
  if reg_eqb r (X b) then load m (ptr_add (ptr_add (get_reg m SP) off) 8)
  else if reg_eqb r (X a) then load m (ptr_add (get_reg m SP) off)
  else get_reg m r.
Proof.
  unfold EPILOG_RESTORE_REG_PAIR, ldp.
  now rewrite !get_reg_set_reg by discriminate.
Qed.

Lemma get_reg_pop_pair a b off m r :
  get_reg (EPILOG_RESTORE_REG_PAIR (X a) (X b) off true m) r =
  if reg_eqb r SP then ptr_add (get_reg m SP) off
  else if reg_eqb r (X b) then load m (ptr_add (get_reg m SP) 8)
  else if reg_eqb r (X a) then load m (ptr_add (get_reg m SP) 0)
  else get_reg m r.
Proof.
  unfold EPILOG_RESTORE_REG_PAIR, ldp_post.
  now rewrite !get_reg_set_reg by discriminate.
Qed.

(** The registers after [POP_COOP_PINVOKE_FRAME], read off the frame at
    [sp]. *)
Lemma POP_COOP_PINVOKE_FRAME_registers (m : machine) r :
  let frame := get_reg m SP in
  get_reg (POP_COOP_PINVOKE_FRAME m) r =
  match r with
  | SP => ptr_add frame 0x80
  | XZR => 0
  | X n =>
      if (19 <=? n)%nat && (n <=? 28)%nat then load m (preserved_slot frame n)
      else if (n =? 29)%nat then load m (ptr_add frame 0)
      else if (n =? 30)%nat then load m (ptr_add frame 8)
      else get_reg m r
  end.
Proof.
  intros frame. unfold POP_COOP_PINVOKE_FRAME, fp, lr. cbv zeta.
  rewrite get_reg_pop_pair. rewrite !load_restore_pair.
  rewrite !get_reg_restore_pair. rewrite !load_restore_pair.
  repeat match goal with
  | |- context [reg_eqb SP (X ?n)] => change (reg_eqb SP (X n)) with false
  end.
  cbv iota. fold frame. unfold preserved_slot.
  destruct r as [n| |]; [|reflexivity|reflexivity].
  rewrite !ptr_add_assoc.
  do 31 (destruct n as [|n]; [reflexivity|]). reflexivity.
Qed.

(** X15. Push, then pop.  After [PUSH_COOP_PINVOKE_FRAME] followed by
    [POP_COOP_PINVOKE_FRAME] the stack pointer and the registers
    [x19]..[x28], [fp] and [lr] hold the values they had on entry, also
    when one of them served as [$trashReg]; every other register but
    [$trashReg] is as it was too, and the pop itself stores nothing. *)
Theorem PUSH_POP_COOP_PINVOKE_FRAME (k : nat) (m : machine) :
  0 <= get_reg m SP < 2 ^ 64 ->
  let pushed := PUSH_COOP_PINVOKE_FRAME (X k) m in
  let popped := POP_COOP_PINVOKE_FRAME pushed in
  (forall r, frame_restored r = true \/ r <> X k -> get_reg popped r = get_reg m r) /\
  (forall a, load popped a = load pushed a).
Proof.
  intros Hsp pushed popped.
  destruct (PUSH_COOP_PINVOKE_FRAME_frame k m Hsp) as (Hsp' & _ & Hload).
  fold pushed in Hsp', Hload.
  assert (Hback : ptr_add (ptr_add (get_reg m SP) (- 0x80)) 0x80 = get_reg m SP).
  { rewrite ptr_add_assoc. apply ptr_add_0_r. exact Hsp. }
  split.
  - intros r Hr. subst popped. rewrite POP_COOP_PINVOKE_FRAME_registers.
    rewrite Hsp'. destruct r as [n| |]; [|reflexivity|exact Hback].
    destruct ((19 <=? n)%nat && (n <=? 28)%nat) eqn:Hsaved.
    + apply andb_prop in Hsaved as [Hlo Hhi].
      apply Nat.leb_le in Hlo. apply Nat.leb_le in Hhi.
      assert (n = 19 \/ n = 20 \/ n = 21 \/ n = 22 \/ n = 23 \/
              n = 24 \/ n = 25 \/ n = 26 \/ n = 27 \/ n = 28)%nat as Hc by lia.
      unfold preserved_slot. set (frame := ptr_add (get_reg m SP) (- 0x80)) in *.
      clearbody frame pushed.
      repeat (destruct Hc as [->|Hc]; [frame_slot Hload|]).
      subst n. frame_slot Hload.
    + set (frame := ptr_add (get_reg m SP) (- 0x80)) in *.
      destruct (Nat.eqb_spec n 29) as [->|H29];
        [clearbody frame pushed; frame_slot Hload|].
      destruct (Nat.eqb_spec n 30) as [->|H30];
        [clearbody frame pushed; frame_slot Hload|].
      apply PUSH_COOP_PINVOKE_FRAME_other_registers; [discriminate|].
      destruct Hr as [Hr|Hr]; [|exact Hr].
      cbn [frame_restored] in Hr. apply andb_prop in Hr as [Hlo Hhi].
      apply Nat.leb_le in Hlo. apply Nat.leb_le in Hhi.
      apply andb_false_iff in Hsaved.
      rewrite Nat.leb_gt, Nat.leb_gt in Hsaved. lia.
  - intros a. subst popped. unfold POP_COOP_PINVOKE_FRAME. cbv zeta.
    now rewrite !load_restore_pair.
Qed.

Lemma PUSH_POP_COOP_PINVOKE_FRAME_witness :
  let m := machine_at 0x8000 (fun _ => 0) in
  let popped := POP_COOP_PINVOKE_FRAME (PUSH_COOP_PINVOKE_FRAME (X 19) m) in
  get_reg popped SP = 0x8000 /\ get_reg popped (X 19) = 19 /\
  get_reg popped (X 30) = 30 /\ get_reg popped (X 3) = 3.
Proof.
  intros m popped.
  assert (Hsp : 0 <= get_reg m SP < 2 ^ 64) by (cbn; lia).
  destruct (PUSH_POP_COOP_PINVOKE_FRAME 19 m Hsp) as [Hregs _].
  split; [apply (Hregs SP); right; discriminate|].
  split; [apply (Hregs (X 19)); left; reflexivity|].
  split; [apply (Hregs (X 30)); left; reflexivity|].
  apply (Hregs (X 3)). right. discriminate.
Defined.

(** *** MOVL64: the value loaded *)

Lemma testbit_above x n i : 0 <= x < 2 ^ n -> 0 <= n <= i -> Z.testbit x i = false.
Proof.
  intros Hx Hn. rewrite <- (Z.mod_small x (2 ^ n)) by assumption.
  apply Z.mod_pow2_bits_high. lia.
Qed.

Lemma testbit_chunk x s j :
  0 <= s -> 0 <= j ->
  Z.testbit (Z.land (Z.shiftr x s) 0xffff) j = (j <? 16) && Z.testbit x (j + s).
Proof.
  intros Hs Hj. rewrite Z.land_spec, Z.shiftr_spec by assumption.
  change 0xffff with (Z.ones 16).
  destruct (Z.ltb_spec j 16).
  - rewrite Z.ones_spec_low by lia. now rewrite andb_true_r.
  - rewrite Z.ones_spec_high by lia. now rewrite andb_false_r.
Qed.

Lemma chunk_range x s : 0 <= Z.land (Z.shiftr x s) 0xffff < 2 ^ 16.
Proof.
  change 0xffff with (Z.ones 16). rewrite Z.land_ones by lia.
  apply Z.mod_pos_bound. lia.
Qed.

(** The bits of the register after [movz] and after [movk]. *)
Lemma testbit_movz imm s i :
  0 <= s -> 0 <= i -> 0 <= imm < 2 ^ 16 ->
  Z.testbit (Z.shiftl imm s) i =
  (s <=? i) && (i <? s + 16) && Z.testbit imm (i - s).
Proof.
  intros Hs Hi Himm. rewrite Z.shiftl_spec by assumption.
  destruct (Z.leb_spec s i), (Z.ltb_spec i (s + 16)); cbn [andb];
    try reflexivity.
  - apply (testbit_above imm 16); [assumption | lia].
  - apply Z.testbit_neg_r. lia.
  - apply Z.testbit_neg_r. lia.
Qed.

Lemma testbit_movk v imm s i :
  0 <= s -> 0 <= i -> 0 <= imm < 2 ^ 16 ->
  Z.testbit (Z.lor (Z.land v (Z.lnot (Z.shiftl 0xffff s))) (Z.shiftl imm s)) i =
  if (s <=? i) && (i <? s + 16) then Z.testbit imm (i - s) else Z.testbit v i.
Proof.
  intros Hs Hi Himm.
  rewrite Z.lor_spec, Z.land_spec, Z.lnot_spec by assumption.
  rewrite (testbit_movz imm s i) by assumption.
  rewrite (testbit_movz 0xffff s i) by first [assumption | split; [lia | reflexivity]].
  change 0xffff with (Z.ones 16).
  destruct (Z.leb_spec s i), (Z.ltb_spec i (s + 16)); cbn [andb orb negb];
    rewrite ?andb_true_r, ?orb_false_r; try reflexivity.
  rewrite Z.ones_spec_low by lia. cbn [negb]. now rewrite andb_false_r.
Qed.

Section MovL64Facts.

Variable Constant : Z.
Variable k : nat.

(** One conditional step of the macro: if the bits of [T] from [s + 16] on
    are in the register (or are all zero while nothing has been emitted
    yet), then after the step the bits of [T] from [s] on are. *)
Lemma MOVL64_step (T : Z) (MovInstr : mov_wide) (m : machine) s (cond : bool) imm :
  0 <= s -> 0 <= imm < 2 ^ 16 ->
  (forall i, 0 <= i ->
     Z.testbit (match MovInstr with MOVZ => 0 | MOVK => get_reg m (X k) end) i =
     (s + 16 <=? i) && Z.testbit T i) ->
  (forall j, 0 <= j < 16 -> Z.testbit T (s + j) = cond && Z.testbit imm j) ->
  forall i, 0 <= i ->
    Z.testbit
      (let '(MovInstr', m') :=
         if cond then (MOVK, mov_wide_instr MovInstr (X k) imm s m) else (MovInstr, m) in
       match MovInstr' with MOVZ => 0 | MOVK => get_reg m' (X k) end) i =
    (s <=? i) && Z.testbit T i.
Proof.
  intros Hs Himm Hinv Hchunk i Hi.
  assert (Hin : s <= i < s + 16 -> Z.testbit T i = cond && Z.testbit imm (i - s)).
  { intros H. replace i with (s + (i - s)) at 1 by lia. apply Hchunk. lia. }
  destruct cond.
  - assert (Hval : get_reg (mov_wide_instr MovInstr (X k) imm s m) (X k) =
                   match MovInstr with
                   | MOVZ => Z.shiftl imm s
                   | MOVK => Z.lor (Z.land (get_reg m (X k)) (Z.lnot (Z.shiftl 0xffff s)))
                                   (Z.shiftl imm s)
                   end).
    { destruct MovInstr; cbn [mov_wide_instr]; unfold movz, movk;
        apply get_reg_set_reg_same; discriminate. }
    cbv zeta iota beta. rewrite Hval. specialize (Hinv i Hi).
    destruct MovInstr.
    + rewrite testbit_movz by assumption. rewrite Z.bits_0 in Hinv.
      destruct (Z.leb_spec s i), (Z.ltb_spec i (s + 16)); cbn [andb].
      * rewrite Hin by lia. reflexivity.
      * destruct (Z.leb_spec (s + 16) i); [|lia]. exact Hinv.
      * reflexivity.
      * reflexivity.
    + rewrite testbit_movk by assumption.
      destruct (Z.leb_spec s i), (Z.ltb_spec i (s + 16)); cbn [andb].
      * rewrite Hin by lia. reflexivity.
      * rewrite Hinv. destruct (Z.leb_spec (s + 16) i); [reflexivity|lia].
      * rewrite Hinv. destruct (Z.leb_spec (s + 16) i); [lia|reflexivity].
      * rewrite Hinv. destruct (Z.leb_spec (s + 16) i); [lia|reflexivity].
  - cbv zeta iota beta. rewrite (Hinv i Hi).
    destruct (Z.leb_spec (s + 16) i), (Z.leb_spec s i); cbn [andb];
      try reflexivity; try lia.
    destruct (Z.ltb_spec i (s + 16)); [|lia].
    rewrite Hin by lia. reflexivity.
Qed.

(** Each step leaves memory and the other registers alone. *)
Lemma mov_wide_instr_other MovInstr imm s m r :
  r <> X k -> get_reg (mov_wide_instr MovInstr (X k) imm s m) r = get_reg m r.
Proof.
  intros Hr. destruct MovInstr; cbn [mov_wide_instr]; unfold movz, movk;
    now apply get_reg_set_reg_other.
Qed.

Lemma mov_wide_instr_mem MovInstr imm s m :
  mem (mov_wide_instr MovInstr (X k) imm s m) = mem m.
Proof. destruct MovInstr; reflexivity. Qed.

End MovL64Facts.

Lemma lor_shiftl_add x y n :
  0 <= n -> 0 <= y < 2 ^ n -> Z.lor (Z.shiftl x n) y = x * 2 ^ n + y.
Proof.
  intros Hn Hy. rewrite <- Z.shiftl_mul_pow2 by assumption.
  assert (Hland : Z.land (Z.shiftl x n) y = 0).
  { apply Z.bits_inj'. intros i Hi. rewrite Z.land_spec, Z.bits_0.
    destruct (Z.lt_ge_cases i n).
    - rewrite Z.shiftl_spec_low by assumption. reflexivity.
    - rewrite (testbit_above y n i) by lia. apply andb_false_r. }
  rewrite <- Z.lxor_lor by assumption. symmetry. now apply Z.add_nocarry_lxor.
Qed.

Section MovL64Value.

Variable Constant : Z.
Variable k : nat.

(** X16. [MOVL64 $Reg, $ConstantLo, $ConstantHi] with two 32-bit
    halves.  The register receives [lo] in its bits 0..31 and the low half
    of [hi] in its bits 32..47; its bits 48..63 are zero when the high
    half of [hi] is zero and otherwise come from [$Constant], which the
    macro uses there instead of [$ConstantHi].  So the register holds the
    64-bit constant [hi : lo] whenever [hi] is below [2^16].  Memory and the
    other registers are left as they were. *)
Theorem MOVL64_value ConstantLo ConstantHi (m : machine) :
  0 <= ConstantLo < 2 ^ 32 -> 0 <= ConstantHi < 2 ^ 32 ->
  let top := if Z.land (Z.shiftr ConstantHi 16) 0xffff =? 0 then 0
             else Z.land (Z.shiftr Constant 16) 0xffff in
  let m' := MOVL64 Constant (X k) ConstantLo ConstantHi m in
  get_reg m' (X k) = top * 2 ^ 48 + (ConstantHi mod 2 ^ 16) * 2 ^ 32 + ConstantLo /\
  (ConstantHi < 2 ^ 16 -> get_reg m' (X k) = ConstantHi * 2 ^ 32 + ConstantLo) /\
  (forall r, r <> X k -> get_reg m' r = get_reg m r) /\
  mem m' = mem m.
Proof.
  intros Hlo Hhi top m'.
  set (c3 := Z.land (Z.shiftr Constant 16) 0xffff) in *.
  set (h3 := Z.land (Z.shiftr ConstantHi 16) 0xffff) in *.
  set (c2 := Z.land ConstantHi 0xffff).
  set (c1 := Z.land (Z.shiftr ConstantLo 16) 0xffff).
  set (c0 := Z.land ConstantLo 0xffff).
  assert (Hc3 : 0 <= c3 < 2 ^ 16) by apply chunk_range.
  assert (Hc2 : 0 <= c2 < 2 ^ 16) by apply (chunk_range ConstantHi 0).
  assert (Hc1 : 0 <= c1 < 2 ^ 16) by apply chunk_range.
  assert (Hc0 : 0 <= c0 < 2 ^ 16) by apply (chunk_range ConstantLo 0).
  assert (Htop : 0 <= top < 2 ^ 16) by (subst top; destruct (h3 =? 0); lia).
  assert (Hc2' : c2 = ConstantHi mod 2 ^ 16)
    by (subst c2; change 0xffff with (Z.ones 16); now rewrite Z.land_ones by lia).
  set (T := Z.lor (Z.shiftl top 48) (Z.lor (Z.shiftl c2 32) ConstantLo)).
  assert (HT : T = top * 2 ^ 48 + c2 * 2 ^ 32 + ConstantLo).
  { subst T. rewrite (lor_shiftl_add c2 ConstantLo 32) by lia.
    rewrite lor_shiftl_add by nia. lia. }
  assert (Hbits : forall i, 0 <= i ->
    Z.testbit T i =
    if i <? 32 then Z.testbit ConstantLo i
    else if i <? 48 then Z.testbit c2 (i - 32)
    else Z.testbit top (i - 48)).
  { intros i Hi. subst T. rewrite !Z.lor_spec, !Z.shiftl_spec by assumption.
    destruct (Z.ltb_spec i 32); [|destruct (Z.ltb_spec i 48)].
    - rewrite !(Z.testbit_neg_r _ (i - 48)), !(Z.testbit_neg_r _ (i - 32)) by lia.
      reflexivity.
    - rewrite (Z.testbit_neg_r _ (i - 48)) by lia.
      rewrite (testbit_above ConstantLo 32 i) by lia.
      now rewrite orb_false_r.
    - rewrite (testbit_above c2 16 (i - 32)) by lia.
      rewrite (testbit_above ConstantLo 32 i) by lia.
      now rewrite !orb_false_r. }
  assert (Hstart : forall i, 0 <= i ->
    Z.testbit 0 i = (48 + 16 <=? i) && Z.testbit T i).
  { intros i Hi. rewrite Z.bits_0. destruct (Z.leb_spec (48 + 16) i); [|reflexivity].
    rewrite Hbits by assumption.
    destruct (Z.ltb_spec i 32); [lia|]. destruct (Z.ltb_spec i 48); [lia|].
    symmetry. apply (testbit_above top 16); lia. }
  assert (Hchunk3 : forall j, 0 <= j < 16 ->
    Z.testbit T (48 + j) = negb (h3 =? 0) && Z.testbit c3 j).
  { intros j Hj. rewrite Hbits by lia.
    destruct (Z.ltb_spec (48 + j) 32); [lia|]. destruct (Z.ltb_spec (48 + j) 48); [lia|].
    replace (48 + j - 48) with j by lia. subst top.
    destruct (h3 =? 0); [apply Z.bits_0 | reflexivity]. }
  assert (Hchunk2 : forall j, 0 <= j < 16 ->
    Z.testbit T (32 + j) = negb (c2 =? 0) && Z.testbit c2 j).
  { intros j Hj. rewrite Hbits by lia.
    destruct (Z.ltb_spec (32 + j) 32); [lia|]. destruct (Z.ltb_spec (32 + j) 48); [|lia].
    replace (32 + j - 32) with j by lia.
    destruct (Z.eqb_spec c2 0) as [->|]; [apply Z.bits_0 | reflexivity]. }
  assert (Hchunk1 : forall j, 0 <= j < 16 ->
    Z.testbit T (16 + j) = negb (c1 =? 0) && Z.testbit c1 j).
  { intros j Hj. rewrite Hbits by lia.
    destruct (Z.ltb_spec (16 + j) 32); [|lia].
    assert (Hc : Z.testbit c1 j = Z.testbit ConstantLo (16 + j)).
    { subst c1. rewrite testbit_chunk by lia.
      destruct (Z.ltb_spec j 16); [|lia]. now rewrite Z.add_comm. }
    rewrite <- Hc.
    destruct (Z.eqb_spec c1 0) as [E|]; [rewrite E; apply Z.bits_0 | reflexivity]. }
  assert (Hchunk0 : forall j, 0 <= j < 16 ->
    Z.testbit T (0 + j) = true && Z.testbit c0 j).
  { intros j Hj. rewrite Hbits by lia. cbn [Z.add andb].
    destruct (Z.ltb_spec j 32); [|lia].
    subst c0. rewrite <- (Z.shiftr_0_r ConstantLo) at 2.
    rewrite testbit_chunk by lia. destruct (Z.ltb_spec j 16); [|lia].
    now rewrite Z.add_0_r. }
  subst m'. unfold MOVL64. cbv zeta. fold c3 h3 c2 c1 c0.
  pose proof (MOVL64_step k T MOVZ m 48 (negb (h3 =? 0)) c3 ltac:(lia) Hc3
                Hstart Hchunk3) as H3.
  assert (Hframe3 :
    let '(M, m1) := if negb (h3 =? 0)
                    then (MOVK, mov_wide_instr MOVZ (X k) c3 48 m) else (MOVZ, m) in
    (forall r, r <> X k -> get_reg m1 r = get_reg m r) /\ mem m1 = mem m).
  { destruct (negb (h3 =? 0)); [|now split].
    split; [intros r Hr; now apply mov_wide_instr_other | apply mov_wide_instr_mem]. }
  destruct (if negb (h3 =? 0)
            then (MOVK, mov_wide_instr MOVZ (X k) c3 48 m) else (MOVZ, m))
    as [M3 m3].
  destruct Hframe3 as [Hr3 Hm3].
  pose proof (MOVL64_step k T M3 m3 32 (negb (c2 =? 0)) c2 ltac:(lia) Hc2
                H3 Hchunk2) as H2.
  assert (Hframe2 :
    let '(M, m1) := if negb (c2 =? 0)
                    then (MOVK, mov_wide_instr M3 (X k) c2 32 m3) else (M3, m3) in
    (forall r, r <> X k -> get_reg m1 r = get_reg m r) /\ mem m1 = mem m).
  { destruct (negb (c2 =? 0)); [|now split].
    split; [intros r Hr; rewrite mov_wide_instr_other by assumption; now apply Hr3
           | now rewrite mov_wide_instr_mem]. }
  destruct (if negb (c2 =? 0)
            then (MOVK, mov_wide_instr M3 (X k) c2 32 m3) else (M3, m3))
    as [M2 m2].
  destruct Hframe2 as [Hr2 Hm2].
  pose proof (MOVL64_step k T M2 m2 16 (negb (c1 =? 0)) c1 ltac:(lia) Hc1
                H2 Hchunk1) as H1.
  assert (Hframe1 :
    let '(M, m1) := if negb (c1 =? 0)
                    then (MOVK, mov_wide_instr M2 (X k) c1 16 m2) else (M2, m2) in
    (forall r, r <> X k -> get_reg m1 r = get_reg m r) /\ mem m1 = mem m).
  { destruct (negb (c1 =? 0)); [|now split].
    split; [intros r Hr; rewrite mov_wide_instr_other by assumption; now apply Hr2
           | now rewrite mov_wide_instr_mem]. }
  destruct (if negb (c1 =? 0)
            then (MOVK, mov_wide_instr M2 (X k) c1 16 m2) else (M2, m2))
    as [M1 m1].
  destruct Hframe1 as [Hr1 Hm1].
  pose proof (MOVL64_step k T M1 m1 0 true c0 ltac:(lia) Hc0 H1 Hchunk0) as H0.
  cbv zeta iota beta in H0.
  assert (Hval : get_reg (mov_wide_instr M1 (X k) c0 0 m1) (X k) = T).
  { apply Z.bits_inj'. intros i Hi. rewrite (H0 i Hi).
    destruct (Z.leb_spec 0 i); [reflexivity | lia]. }
  split; [rewrite Hval, HT, Hc2'; reflexivity|].
  split.
  - intros Hsmall. rewrite Hval, HT, Hc2'.
    assert (Hh3 : h3 = 0).
    { subst h3. rewrite Z.shiftr_div_pow2 by lia.
      rewrite Z.div_small by lia. reflexivity. }
    subst top. rewrite Hh3. cbn [Z.eqb].
    rewrite Z.mod_small by lia. lia.
  - split.
    + intros r Hr. rewrite mov_wide_instr_other by assumption. now apply Hr1.
    + now rewrite mov_wide_instr_mem.
Qed.

End MovL64Value.

Lemma MOVL64_value_witness :
  get_reg (MOVL64 0 (X 9) 0x89ABCDEF 0x1234 (machine_at 0x8000 (fun _ => 0))) (X 9)
  = 0x123489ABCDEF.
Proof.
  assert (Hlo : 0 <= 0x89ABCDEF < 2 ^ 32) by (split; [lia | reflexivity]).
  assert (Hhi : 0 <= 0x1234 < 2 ^ 32) by (split; [lia | reflexivity]).
  destruct (MOVL64_value 0 9 0x89ABCDEF 0x1234 (machine_at 0x8000 (fun _ => 0))
              Hlo Hhi) as (_ & Hsmall & _).
  rewrite Hsmall; [reflexivity | reflexivity].
Defined.

(** *** Flags and their bit numbers *)

Lemma land_pow2_testbit w n :
  0 <= n -> Z.testbit w n = negb (Z.land w (2 ^ n) =? 0).
Proof.
  intros Hn.
  assert (Hland : Z.land w (2 ^ n) = if Z.testbit w n then 2 ^ n else 0).
  { apply Z.bits_inj'. intros i Hi. rewrite Z.land_spec, Z.pow2_bits_eqb by assumption.
    destruct (Z.eqb_spec n i) as [->|Hne].
    - destruct (Z.testbit w i); cbn [andb];
        [now rewrite Z.pow2_bits_true | now rewrite Z.bits_0].
    - rewrite andb_false_r.
      destruct (Z.testbit w n);
        [now rewrite Z.pow2_bits_false | now rewrite Z.bits_0]. }
  rewrite Hland. destruct (Z.testbit w n); [|reflexivity].
  assert (0 < 2 ^ n) by now apply Z.pow_pos_nonneg.
  destruct (Z.eqb_spec (2 ^ n) 0); [lia | reflexivity].
Qed.

(** X17. Each [..._Bit] constant is the number of the bit of its flag:
    testing that bit of a flags word, as [tbz]/[tbnz] do, is testing the
    word against the flag.  For the abort flag, bit 36 of the 64-bit flags
    is [PTFF_THREAD_ABORT_HI] in the upper 32 bits.  The combined thread
    state flag is clear in a word exactly when both of its bits are. *)
Theorem flag_bits_match (w : Z) :
  Z.testbit w TSF_Attached_Bit = negb (Z.land w TSF_Attached =? 0) /\
  Z.testbit w TSF_SuppressGcStress_Bit = negb (Z.land w TSF_SuppressGcStress =? 0) /\
  Z.testbit w TSF_DoNotTriggerGc_Bit = negb (Z.land w TSF_DoNotTriggerGc =? 0) /\
  Z.testbit w TrapThreadsFlags_AbortInProgress_Bit
    = negb (Z.land w TrapThreadsFlags_AbortInProgress =? 0) /\
  Z.testbit w TrapThreadsFlags_TrapThreads_Bit
    = negb (Z.land w TrapThreadsFlags_TrapThreads =? 0) /\
  Z.testbit w PTFF_THREAD_ABORT_BIT
    = negb (Z.land (Z.shiftr w 32) PTFF_THREAD_ABORT_HI =? 0) /\
  (Z.land w TSF_SuppressGcStress__OR__TSF_DoNotTriggerGC =? 0)
    = negb (Z.testbit w TSF_SuppressGcStress_Bit)
      && negb (Z.testbit w TSF_DoNotTriggerGc_Bit).
Proof.
  split; [apply (land_pow2_testbit w 0); lia|].
  split; [apply (land_pow2_testbit w 3); lia|].
  split; [apply (land_pow2_testbit w 4); lia|].
  split; [apply (land_pow2_testbit w 0); lia|].
  split; [apply (land_pow2_testbit w 1); lia|].
  split.
  - change PTFF_THREAD_ABORT_HI with (2 ^ 4).
    rewrite <- (land_pow2_testbit (Z.shiftr w 32) 4) by lia.
    rewrite Z.shiftr_spec by lia. reflexivity.
  - change TSF_SuppressGcStress__OR__TSF_DoNotTriggerGC with (Z.lor (2 ^ 3) (2 ^ 4)).
    rewrite Z.land_lor_distr_r.
    change TSF_SuppressGcStress_Bit with 3. change TSF_DoNotTriggerGc_Bit with 4.
    rewrite (land_pow2_testbit w 3), (land_pow2_testbit w 4) by lia.
    rewrite !negb_involutive.
    pose proof (Z.land_nonneg w (2 ^ 3)) as H3.
    pose proof (Z.land_nonneg w (2 ^ 4)) as H4.
    assert (0 <= Z.land w (2 ^ 3)) by (apply H3; right; lia).
    assert (0 <= Z.land w (2 ^ 4)) by (apply H4; right; lia).
    destruct (Z.eqb_spec (Z.land w (2 ^ 3)) 0) as [E3|E3],
             (Z.eqb_spec (Z.land w (2 ^ 4)) 0) as [E4|E4]; cbn [andb].
    + rewrite E3, E4. reflexivity.
    + apply Z.eqb_neq. intros E. apply Z.lor_eq_0_iff in E. tauto.
    + apply Z.eqb_neq. intros E. apply Z.lor_eq_0_iff in E. tauto.
    + apply Z.eqb_neq. intros E. apply Z.lor_eq_0_iff in E. tauto.
Qed.

(** X18. The save flags of the low word use each of its 32 bits once, in
    the order of the table: the flags of [x19]..[x28], of [sp], of
    [x0]..[x18], of [fp] and of [lr] are the bits 0 to 31.
    [PTFF_SAVE_ALL_PRESERVED] is the union of the first group and
    [PTFF_SAVE_ALL_SCRATCH] the union of the flags of [x0]..[x18]; the
    two masks share no bit, and with [sp], [fp] and [lr] they fill the
    word. *)
Theorem PTFF_SAVE_flags_partition :
  PTFF_SAVE_flags = List.map (fun i => 2 ^ Z.of_nat i) (List.seq 0 32) /\
  PTFF_SAVE_ALL_PRESERVED = List.fold_right Z.lor 0 PTFF_SAVE_preserved /\
  PTFF_SAVE_ALL_SCRATCH = List.fold_right Z.lor 0 PTFF_SAVE_scratch /\
  Z.land PTFF_SAVE_ALL_PRESERVED PTFF_SAVE_ALL_SCRATCH = 0 /\
  PTFF_SAVE_ALL_PRESERVED + PTFF_SAVE_SP + PTFF_SAVE_ALL_SCRATCH
    + PTFF_SAVE_FP + PTFF_SAVE_LR = 2 ^ 32 - 1.
Proof. repeat split. Qed.

(** ** The heap registry: no call through a null pointer *)

Section HeapRegistryGuard.

Variable IGCHeap : Type.
Variable S : Type.
Variable F : Type -> Type.
Variables impl1 impl2 : IGCHeapE IGCHeap ~> Monads.stateT S (itree F).

Hypothesis same_IsGCInProgressHelper : forall heap b s,
  impl1 _ (IsGCInProgressHelper heap b) s ≈ impl2 _ (IsGCInProgressHelper heap b) s.
Hypothesis same_WaitUntilGCComplete : forall heap b s,
  impl1 _ (WaitUntilGCComplete heap b) s ≈ impl2 _ (WaitUntilGCComplete heap b) s.

(** X19. [IsGCInProgress] and [WaitForGCCompletion] never call through a
    null [g_pGCHeap]: two heap implementations that answer the two virtual
    methods alike give the same runs of both functions, whatever each of
    them makes of a call through a null pointer, for every value of
    [g_pGCHeap]. *)
Theorem guarded_calls_ignore_null (g_pGCHeap : option IGCHeap) bConsiderGCStart (s : S) :
  interp_state impl1 (IsGCInProgress g_pGCHeap bConsiderGCStart) s
  ≈ interp_state impl2 (IsGCInProgress g_pGCHeap bConsiderGCStart) s /\
  interp_state impl1 (WaitForGCCompletion g_pGCHeap bConsiderGCStart) s
  ≈ interp_state impl2 (WaitForGCCompletion g_pGCHeap bConsiderGCStart) s.
Proof.
  destruct g_pGCHeap as [heap|]; cbn.
  - split.
    + rewrite !interp_state_trigger. apply same_IsGCInProgressHelper.
    + rewrite !interp_state_bind, !interp_state_trigger.
      rewrite same_WaitUntilGCComplete.
      apply eutt_eq_bind. intros [s' r]. cbn.
      rewrite !interp_state_ret. reflexivity.
  - split; rewrite !interp_state_ret; reflexivity.
Qed.

End HeapRegistryGuard.

(** The two example implementations do differ on a call through a null
    pointer: one hangs, the other faults. *)
Lemma hanging_faulting_differ (s : nat) :
  ~ (hanging_heap _ NullDereference s ≈ faulting_heap _ NullDereference s).
Proof.
  intros H. cbn in H.
  unfold ITree.trigger in H. rewrite bind_vis in H.
  punfold H. red in H. cbn in H.
  remember (TauF ITree.spin) as ot eqn:Hot.
  remember (VisF Fault _) as ov eqn:Hov.
  revert Hot Hov.
  induction H; intros Hot Hov; try discriminate.
  apply IHeqitF; [|exact Hov].
  inversion Hot; subst. reflexivity.
Qed.

Lemma guarded_calls_ignore_null_witness :
  ~ (hanging_heap _ NullDereference 3%nat ≈ faulting_heap _ NullDereference 3%nat) /\
  interp_state hanging_heap (IsGCInProgress (@None unit) false) 3%nat
  ≈ interp_state faulting_heap (IsGCInProgress (@None unit) false) 3%nat /\
  interp_state hanging_heap (IsGCInProgress (Some tt) false) 3%nat
  ≈ interp_state faulting_heap (IsGCInProgress (Some tt) false) 3%nat /\
  interp_state hanging_heap (WaitForGCCompletion (@None unit) false) 3%nat
  ≈ interp_state faulting_heap (WaitForGCCompletion (@None unit) false) 3%nat /\
  interp_state hanging_heap (WaitForGCCompletion (Some tt) false) 3%nat
  ≈ interp_state faulting_heap (WaitForGCCompletion (Some tt) false) 3%nat.
Proof.
  pose proof (guarded_calls_ignore_null unit nat faultE hanging_heap faulting_heap
                ltac:(intros; reflexivity) ltac:(intros; reflexivity)) as H.
  split; [apply hanging_faulting_differ|].
  split; [apply (H None false 3%nat)|].
  split; [apply (H (Some tt) false 3%nat)|].
  split; [apply (H None false 3%nat) | apply (H (Some tt) false 3%nat)].
Defined.
